(** * add_starfield: star placement and glitter animation

    A shallow embedding of [src/data/add_starfield.c] and the properties of
    its star placement pass and of its frame renderer.

    Conventions of the embedding.
    - A C [int] is a [Z]; signed overflow is undefined in C, so the
      development speaks of images whose sizes keep every index below
      [INT_MAX].  Unsigned 32-bit arithmetic ([uint32_t]) wraps, and the
      wrap-around is written out with [wrap32].
    - [memcpy] of an [int] into a byte buffer is little-endian, four bytes.
    - The pixel buffer is a [list Z] of bytes, two per pixel (gray, alpha),
      row-major.  Stores to it are recorded as lists of (offset, byte)
      pairs and applied in order.  A load past the end of the buffer reads
      memory the canvas does not own: its value is given by an oracle
      ([beyond]) on which every theorem is parametric.
    - [rand()] and [RAND_MAX] belong to the C library: the sequence of
      values returned after [srand(1)] is a parameter.  [double] is IEEE
      binary64, for which the kernel's primitive floats are used. *)

From Stdlib Require Import ZArith Lia.
From Stdlib Require Import PrimFloat FloatOps SpecFloat Uint63 FloatAxioms.
From stdpp Require Import base tactics numbers option list.

#[local] Open Scope Z_scope.

(** ** Machine integers *)

Definition INT_MAX : Z := 2147483647.

Definition wrap32 (z : Z) : Z := z mod 2 ^ 32.

(** The bytes [memcpy] reads from the object representation of an [int]. *)
Definition int_bytes (v : Z) : list Z :=
  map (fun k => Z.land (Z.shiftr (wrap32 v) (8 * k)) 255) [0; 1; 2; 3].

(** ** Coordinate hash *)

(** One round of the loop of [Hash]. *)
Definition Hash_round (hash byte : Z) : Z :=
  let hash := wrap32 (hash + byte) in
  let hash := wrap32 (hash + wrap32 (Z.shiftl hash 10)) in
  Z.lxor hash (Z.shiftr hash 6).

(** Jenkins' one-at-a-time hash; [size] is the length of [bytes]. *)
Definition Hash (bytes : list Z) : Z :=
  let hash := fold_left Hash_round bytes 0 in
  let hash := wrap32 (hash + wrap32 (Z.shiftl hash 3)) in
  let hash := Z.lxor hash (Z.shiftr hash 11) in
  wrap32 (hash + wrap32 (Z.shiftl hash 15)).

Definition HashPair (x y : Z) : Z := Hash (int_bytes x ++ int_bytes y).

Definition IsStarLocation (x y : Z) : bool :=
  Z.land (HashPair x y) 69905 (* 0x11111 *) =? 0.

(** ** Images, coordinates, pixel memory *)

Definition RADIUS : Z := 12.

Module XY.
Record t : Type := mk { x : Z; y : Z }.
End XY.
Abbreviation XY := XY.t.

#[global] Instance XY_eq_dec : EqDecision XY.
Proof. solve_decision. Defined.

Record png_image : Type := { width : Z; height : Z }.

Definition Max (a b : Z) : Z := if a >? b then a else b.
Definition Min (a b : Z) : Z := if a <? b then a else b.

(** A coordinate of the canvas. *)
Definition in_canvas (image : png_image) (s : XY) : Prop :=
  0 <= XY.x s < width image /\ 0 <= XY.y s < height image.

(** [PNG_IMAGE_SIZE] for the two-channel 8-bit format. *)
Definition PNG_IMAGE_SIZE (image : png_image) : Z :=
  2 * width image * height image.

(** [pixels[k]]: inside the buffer the byte stored there, outside whatever
    the memory next to the buffer holds. *)
Definition load (beyond : Z -> Z) (pixels : list Z) (k : Z) : Z :=
  if k <? 0 then beyond k
  else match pixels !! Z.to_nat k with
       | Some b => b
       | None => beyond k
       end.

(** A store of one byte at an offset from [pixels]. *)
Definition store : Type := Z * Z.

Definition apply_store (pixels : list Z) (st : store) : list Z :=
  if st.1 <? 0 then pixels else <[Z.to_nat st.1 := st.2]> pixels.

Definition apply_stores (sts : list store) (pixels : list Z) : list Z :=
  fold_left apply_store sts pixels.

(** The stores of [DrawPixel]: gray 0, alpha 0xff, inside the canvas only. *)
Definition DrawPixel_stores (image : png_image) (x y : Z) : list store :=
  if (0 <=? x) && (x <? width image) && (0 <=? y) && (y <? height image)
  then let p := (y * width image + x) * 2 in [(p, 0); (p + 1, 255)]
  else [].

Definition DrawPixel (image : png_image) (pixels : list Z) (x y : Z) : list Z :=
  apply_stores (DrawPixel_stores image x y) pixels.

(** ** Proximity test *)

Section Proximity.
Variable read : Z -> Z.
Variable image : png_image.
Variables x y : Z.

(** The inner loop of [IsEmptyRegion], [n] iterations from [ix].  The
    result is the list of coordinates whose alpha byte was loaded and
    [false] when the function returned 0. *)
Fixpoint scan_row (iy ix : Z) (n : nat) : list (Z * Z) * bool :=
  match n with
  | O => ([], true)
  | S n' =>
      let dy2 := (y - iy) * (y - iy) in
      let dx2 := (x - ix) * (x - ix) in
      if dx2 + dy2 >? RADIUS * RADIUS then scan_row iy (ix + 1) n'
      else if read ((iy * width image + ix) * 2 + 1) =? 0
           then let r := scan_row iy (ix + 1) n' in ((ix, iy) :: r.1, r.2)
           else ([(ix, iy)], false)
  end.

(** The outer loop, [n] rows from [iy]. *)
Fixpoint scan_rows (iy : Z) (n : nat) : list (Z * Z) * bool :=
  match n with
  | O => ([], true)
  | S n' =>
      let lo := Max (x - RADIUS) 0 in
      let hi := Min (x + RADIUS) (width image) in
      let r := scan_row iy lo (Z.to_nat (hi - lo + 1)) in
      if r.2
      then let r' := scan_rows (iy + 1) n' in (r.1 ++ r'.1, r'.2)
      else r
  end.

Definition IsEmptyRegion_scan : list (Z * Z) * bool :=
  let lo := Max (y - RADIUS) 0 in
  let hi := Min (y + RADIUS) (height image) in
  scan_rows lo (Z.to_nat (hi - lo + 1)).
End Proximity.

Definition IsEmptyRegion (beyond : Z -> Z) (image : png_image)
    (pixels : list Z) (x y : Z) : bool :=
  (IsEmptyRegion_scan (load beyond pixels) image x y).2.

(** The coordinates whose alpha byte one call inspects, in order. *)
Definition IsEmptyRegion_reads (beyond : Z -> Z) (image : png_image)
    (pixels : list Z) (x y : Z) : list (Z * Z) :=
  (IsEmptyRegion_scan (load beyond pixels) image x y).1.

(** ** Random source *)

Definition double_of_int (z : Z) : float :=
  if z <? 0 then PrimFloat.opp (PrimFloat.of_uint63 (Uint63.of_Z (- z)))
  else PrimFloat.of_uint63 (Uint63.of_Z z).

(** The conversion [(int)d]: truncation toward zero. *)
Definition int_of_double (d : float) : Z :=
  match Prim2SF d with
  | S754_finite s m e =>
      let a := if 0 <=? e then Z.shiftl (Zpos m) e else Z.shiftr (Zpos m) (- e) in
      if s then - a else a
  | _ => 0
  end.

Section Generation.
Variable RAND_MAX : Z.
(** [rand k] is the value of the [k]-th call of [rand()] after [srand(1)]. *)
Variable rand : nat -> Z.
(** [beyond i k] is the byte at offset [k] from [pixels], past the end of
    the buffer, while the [i]-th candidate is visited. *)
Variable beyond : nat -> Z -> Z.

(** [RandomInt(a, b)] at the [k]-th call of [rand()]. *)
Definition RandomInt (k : nat) (a b : Z) : Z :=
  int_of_double
    (PrimFloat.add
       (PrimFloat.mul
          (PrimFloat.div (double_of_int (rand k)) (double_of_int RAND_MAX))
          (double_of_int (b - a)))
       (double_of_int a)).

(** The star array after the two nested initialisation loops. *)
Definition init_stars (image : png_image) : list XY :=
  y ← seqZ 0 (height image); x ← seqZ 0 (width image); [XY.mk x y].

(** The body of the shuffle loop: exchange [stars[i]] and [stars[j]].
    An index outside the array is an out-of-bounds access: [None]. *)
Definition swap (stars : list XY) (i : nat) (j : Z) : option (list XY) :=
  if j <? 0 then None
  else
    a ← stars !! i;
    b ← stars !! Z.to_nat j;
    Some (<[Z.to_nat j := a]> (<[i := b]> stars)).

(** [for(i = ...; i > 0; i--)], with [calls] calls of [rand()] so far. *)
Fixpoint shuffle_from (i calls : nat) (stars : list XY) : option (list XY) :=
  match i with
  | O => Some stars
  | S i' =>
      stars' ← swap stars i (RandomInt calls 0 (Z.of_nat i));
      shuffle_from i' (S calls) stars'
  end.

Definition shuffle (stars : list XY) : option (list XY) :=
  shuffle_from (length stars - 1) 0 stars.

(** State of the candidate loop. *)
Record visit_state : Type := VisitState {
  vs_stars : list XY;
  vs_star_count : nat;
  vs_pixels : list Z
}.

(** The condition of the [if] in the candidate loop, at read index [i]. *)
Definition accepts (image : png_image) (pixels : list Z) (i : nat) (s : XY)
    : bool :=
  IsStarLocation (XY.x s) (XY.y s)
  && IsEmptyRegion (beyond i) image pixels (XY.x s) (XY.y s).

(** One iteration of the candidate loop, at read index [i]. *)
Definition visit (image : png_image) (st : visit_state) (i : nat) : visit_state :=
  match vs_stars st !! i with
  | None => st
  | Some s =>
      if accepts image (vs_pixels st) i s
      then {| vs_stars := <[vs_star_count st := s]> (vs_stars st);
              vs_star_count := S (vs_star_count st);
              vs_pixels := DrawPixel image (vs_pixels st) (XY.x s) (XY.y s) |}
      else st
  end.

(** The loop state after the first [k] candidates were visited. *)
Definition visit_upto (image : png_image) (stars : list XY) (pixels : list Z)
    (k : nat) : visit_state :=
  fold_left (visit image) (seq 0 k) (VisitState stars 0 pixels).

(** Star placement: initialise, shuffle, visit every candidate. *)
Definition generate (image : png_image) (pixels : list Z) : option visit_state :=
  stars ← shuffle (init_stars image);
  Some (visit_upto image stars pixels (length stars)).

(** The Star Registry: the first [star_count] slots of the array. *)
Definition registry (st : visit_state) : list XY :=
  take (vs_star_count st) (vs_stars st).

(** The pass as the specification tells it: the registry is a sequence
    built by appending each accepted candidate, the candidates [cands]
    being visited in order from read index [i]. *)
Fixpoint place_append (image : png_image) (i : nat) (cands : list XY)
    (reg : list XY) (pixels : list Z) : list XY * list Z :=
  match cands with
  | [] => (reg, pixels)
  | s :: cands' =>
      if accepts image pixels i s
      then place_append image (S i) cands' (reg ++ [s])
             (DrawPixel image pixels (XY.x s) (XY.y s))
      else place_append image (S i) cands' reg pixels
  end.
End Generation.

(** ** Frame renderer *)

(** The value of [j] in the render loop: unsigned arithmetic, [frame]
    converted to [uint32_t]. *)
Definition phase (s : XY) (frame : Z) : Z :=
  (wrap32 (Z.shiftr (HashPair (XY.x s) (XY.y s)) 4 + wrap32 frame) / 5) mod 4.

Inductive glitter : Type := Erase | Plain | Glitter.

(** The three branches of the render loop body, by the value of [j]. *)
Definition glitter_of (j : Z) : glitter :=
  if j =? 0 then Erase
  else if (j =? 1) || (j =? 3) then Plain
  else Glitter.

(** The stores of one iteration of the render loop. *)
Definition render_star_stores (image : png_image) (frame : Z) (s : XY) : list store :=
  match glitter_of (phase s frame) with
  | Erase =>
      let p := (XY.y s * width image + XY.x s) * 2 in [(p, 0); (p + 1, 0)]
  | Plain => []
  | Glitter =>
      DrawPixel_stores image (XY.x s - 1) (XY.y s)
      ++ DrawPixel_stores image (XY.x s + 1) (XY.y s)
      ++ DrawPixel_stores image (XY.x s) (XY.y s - 1)
      ++ DrawPixel_stores image (XY.x s) (XY.y s + 1)
  end.

Definition render_star (image : png_image) (frame : Z) (pixels : list Z)
    (s : XY) : list Z :=
  apply_stores (render_star_stores image frame s) pixels.

(** Every store of the render loop over the registry [stars]. *)
Definition render_stores (image : png_image) (stars : list XY) (frame : Z)
    : list store :=
  s ← stars; render_star_stores image frame s.

(** The render loop. *)
Definition render (image : png_image) (stars : list XY) (frame : Z)
    (pixels : list Z) : list Z :=
  fold_left (render_star image frame) stars pixels.

#[global] Arguments Hash : simpl never.
#[global] Arguments HashPair : simpl never.
#[global] Arguments IsStarLocation : simpl never.
#[global] Arguments phase : simpl never.
#[global] Arguments IsEmptyRegion : simpl never.
#[global] Arguments DrawPixel : simpl never.
#[global] Arguments DrawPixel_stores : simpl never.
#[global] Arguments render_star_stores : simpl never.
#[global] Arguments RandomInt : simpl never.
#[global] Arguments accepts : simpl never.
#[global] Arguments wrap32 : simpl never.
#[global] Arguments glitter_of : simpl never.
#[global] Arguments render_star : simpl never.
#[global] Arguments INT_MAX : simpl never.

(** What a run leaves on standard output: nothing when the input is
    refused as too small, else the pixel buffer it writes. *)
Inductive output : Type :=
  | TooSmall
  | Written (pixels : list Z).

(** The program once the header of the input is read: an image narrower
    or lower than 10 pixels is refused before anything else is done;
    otherwise the stars are placed and the frame is rendered on the
    registry.  [None] is an access outside the star array. *)
Definition main (RAND_MAX : Z) (rand : nat -> Z) (beyond : nat -> Z -> Z)
    (image : png_image) (pixels : list Z) (frame : Z) : option output :=
  if (width image <? 10) || (height image <? 10) then Some TooSmall
  else
    st ← generate RAND_MAX rand beyond image pixels;
    Some (Written (render image (registry st) frame (vs_pixels st))).

(** ** Auxiliary notions for the statements *)

(** The byte most recently stored at offset [k] by the stores [sts]. *)
Fixpoint last_store (sts : list store) (k : Z) : option Z :=
  match sts with
  | [] => None
  | st :: sts' =>
      match last_store sts' k with
      | Some b => Some b
      | None => if st.1 =? k then Some st.2 else None
      end
  end.

(** A store that hits one of the two bytes of a pixel of the canvas. *)
Definition store_in_canvas (image : png_image) (st : store) : Prop :=
  exists s c, in_canvas image s /\ (c = 0 \/ c = 1)
    /\ st.1 = (XY.y s * width image + XY.x s) * 2 + c.

(** Gray and alpha of the pixel at a coordinate, when it is in the buffer. *)
Definition pixel_at (image : png_image) (pixels : list Z) (s : XY)
    : option (Z * Z) :=
  let p := Z.to_nat ((XY.y s * width image + XY.x s) * 2) in
  g ← pixels !! p; a ← pixels !! S p; Some (g, a).

(** The centre and the four cardinal neighbours of a star. *)
Definition star_pixels (s : XY) : list XY :=
  [s; XY.mk (XY.x s - 1) (XY.y s); XY.mk (XY.x s + 1) (XY.y s);
   XY.mk (XY.x s) (XY.y s - 1); XY.mk (XY.x s) (XY.y s + 1)].

(** Squared Euclidean distance of two coordinates. *)
Definition dist2 (p q : XY) : Z :=
  (XY.x p - XY.x q) * (XY.x p - XY.x q) + (XY.y p - XY.y q) * (XY.y p - XY.y q).

(** A 10x10 fully transparent canvas. *)
Definition image10 : png_image := {| width := 10; height := 10 |}.
Definition blank10 : list Z := replicate 200 0.

(** The swap index the shuffle draws for slot [i] of an array of [n]
    coordinates: the call of [RandomInt(0, i)] is the [(n-1-i)]-th. *)
Definition swap_index (RAND_MAX : Z) (rand : nat -> Z) (n i : nat) : Z :=
  RandomInt RAND_MAX rand (n - 1 - i) 0 (Z.of_nat i).

(** Every swap index drawn while an array of [n] is shuffled lies in
    [[0, i]]. *)
Definition draws_in_range (RAND_MAX : Z) (rand : nat -> Z) (n : nat) : Prop :=
  forall i, (0 < i < n)%nat -> 0 <= swap_index RAND_MAX rand n i <= Z.of_nat i.

Definition draws_in_rangeb (RAND_MAX : Z) (rand : nat -> Z) (n : nat) : bool :=
  forallb (fun i => (0 <=? swap_index RAND_MAX rand n i)
                    && (swap_index RAND_MAX rand n i <=? Z.of_nat i))
    (seq 1 (n - 1)).

(** A random source to run the program on: the sample [rand] of the C
    standard, [next = next * 1103515245 + 12345] on 32 bits from
    [next = 1], returning [(next / 65536) % 32768]. *)
Definition sample_RAND_MAX : Z := 32767.

Fixpoint sample_stream (n : nat) (next : Z) : list Z :=
  match n with
  | O => []
  | S n' =>
      let next := wrap32 (next * 1103515245 + 12345) in
      (next / 65536) mod 32768 :: sample_stream n' next
  end.

(** Its first 1200 values, computed once. *)
Definition sample_values : list Z := Eval vm_compute in sample_stream 1200 1.

Definition sample_rand (k : nat) : Z := nth k sample_values 0.

(** A 10x10 fully opaque canvas. *)
Definition opaque10 : list Z := replicate 200 255.

(** The alpha byte of a coordinate is 0xff. *)
Definition opaque_at (image : png_image) (pixels : list Z) (s : XY) : Prop :=
  pixels !! Z.to_nat ((XY.y s * width image + XY.x s) * 2 + 1) = Some 255.

(** Every two entries of a registry are more than [RADIUS] apart. *)
Definition isolated (reg : list XY) : Prop :=
  forall (a b : nat) p q, (a < b)%nat -> reg !! a = Some p -> reg !! b = Some q ->
    RADIUS * RADIUS < dist2 p q.

(** What the placement pass keeps true of the registry and the buffer. *)
Definition placed (image : png_image) (reg : list XY) (pixels : list Z) : Prop :=
  length pixels = Z.to_nat (PNG_IMAGE_SIZE image)
  /\ Forall (in_canvas image) reg
  /\ Forall (opaque_at image pixels) reg
  /\ isolated reg.

(** Two pixel buffers of one size with the same alpha bytes. *)
Definition same_alpha (pixels1 pixels2 : list Z) : Prop :=
  length pixels1 = length pixels2
  /\ forall n : nat, pixels1 !! (2 * n + 1)%nat = pixels2 !! (2 * n + 1)%nat.

(** No slot of the array [stars] holds a candidate that passes both tests
    on the buffer [pixels]. *)
Definition none_accepted (beyond : nat -> Z -> Z) (image : png_image)
    (pixels : list Z) (stars : list XY) : Prop :=
  forall i s, stars !! i = Some s -> accepts beyond image pixels i s = false.

Definition none_acceptedb (beyond : nat -> Z -> Z) (image : png_image)
    (pixels : list Z) (stars : list XY) : bool :=
  forallb (fun b => negb b) (imap (accepts beyond image pixels) stars).

(** The transparent 10x10 canvas with the single pixel (0,9) opaque. *)
Definition spotted10 : list Z := <[181%nat := 255]> blank10.

(** A 32x32 fully transparent canvas. *)
Definition image32 : png_image := {| width := 32; height := 32 |}.
Definition blank32 : list Z := replicate 2048 0.

(** Memory past the end of the buffer that reads as zero bytes, and as
    0xff bytes. *)
Definition zeros_beyond : nat -> Z -> Z := fun _ _ => 0.
Definition ones_beyond : nat -> Z -> Z := fun _ _ => 255.

(** The star that placement accepts on [blank10] with the sample random
    source, its canvas right after placement, and the same canvas after
    frame 10 was rendered on it. *)
Definition star67 : XY := XY.mk 6 7.
Definition fresh67 : list Z := DrawPixel image10 blank10 6 7.
Definition glittered67 : list Z := render image10 [star67] 10 fresh67.

(** ** Rounding to binary64

    The state of the right shift that rounding performs ([shr_record]: the
    mantissa so far, the round bit and the sticky bit) under the exponent
    [e] stands for a value that does not exceed the integer [B]. *)
Definition fits_below (B : Z) (mrs : shr_record) (e : Z) : Prop :=
  0 <= shr_m mrs
  /\ (e <= 0 ->
      shr_m mrs < B * 2 ^ (- e)
      \/ (shr_m mrs = B * 2 ^ (- e) /\ shr_r mrs = false /\ shr_s mrs = false)).

(** A random source whose every value lies in [[0, RAND_MAX]], as the C
    standard asks of [rand()]. *)
Definition rand_in_range (RAND_MAX : Z) (rand : nat -> Z) : Prop :=
  forall k, 0 <= rand k <= RAND_MAX.

(** ** Further notions for the statements *)

(** The offset of the gray byte of a coordinate; its alpha byte is next. *)
Definition pixel_offset (image : png_image) (q : XY) : Z :=
  (XY.y q * width image + XY.x q) * 2.

(** The alpha byte of a coordinate, when it is in the buffer. *)
Definition alpha_at (image : png_image) (pixels : list Z) (q : XY) : option Z :=
  pixels !! Z.to_nat (pixel_offset image q + 1).

(** The byte one iteration of the scan loads for an inspected coordinate. *)
Definition scanned_byte (read : Z -> Z) (image : png_image) (p : Z * Z) : Z :=
  read ((p.2 * width image + p.1) * 2 + 1).

(** A scan stops at the first byte that is not zero: with result 1 every
    inspected byte is zero, with result 0 the last one inspected is the
    only one that is not. *)
Definition stops_at_first_opaque (read : Z -> Z) (image : png_image)
    (r : list (Z * Z) * bool) : Prop :=
  if r.2 then forall p, p ∈ r.1 -> scanned_byte read image p = 0
  else exists front p, r.1 = front ++ [p]
         /\ scanned_byte read image p <> 0
         /\ forall p', p' ∈ front -> scanned_byte read image p' = 0.

(** The buffer after [DrawPixel] was called for each coordinate of a list. *)
Definition draw_all (image : png_image) (stars : list XY) (pixels : list Z)
    : list Z :=
  fold_left (fun px s => DrawPixel image px (XY.x s) (XY.y s)) stars pixels.

(** A pixel of the buffer that is not transparent. *)
Definition opaque_in (image : png_image) (pixels : list Z) (q : XY) : Prop :=
  exists a, alpha_at image pixels q = Some a /\ a <> 0.

(** Around every star of a registry, up to [RADIUS], every other pixel of
    the canvas is transparent. *)
Definition alone_in_radius (image : png_image) (pixels : list Z)
    (reg : list XY) : Prop :=
  forall s q, s ∈ reg -> in_canvas image q -> q <> s ->
    dist2 q s <= RADIUS * RADIUS -> alpha_at image pixels q = Some 0.

(** What the placement pass keeps true between the buffer it was given,
    [pixels0], and its registry and buffer. *)
Definition settled (image : png_image) (pixels0 : list Z) (reg : list XY)
    (pixels : list Z) : Prop :=
  placed image reg pixels
  /\ length pixels0 = Z.to_nat (PNG_IMAGE_SIZE image)
  /\ alone_in_radius image pixels reg
  /\ (forall q, in_canvas image q -> opaque_in image pixels0 q ->
        opaque_in image pixels q)
  /\ (forall s, s ∈ reg -> alpha_at image pixels0 s = Some 0).

(** From one buffer to the other no alpha byte that is not zero became
    zero, and the length is the same. *)
Definition alpha_grows (pixels pixels' : list Z) : Prop :=
  length pixels = length pixels'
  /\ forall (n : nat) a, pixels !! (2 * n + 1)%nat = Some a -> a <> 0 ->
       exists a', pixels' !! (2 * n + 1)%nat = Some a' /\ a' <> 0.


(** The transparent 32x32 canvas with the single pixel (16,16) opaque. *)
Definition spotted32 : list Z := <[1057%nat := 255]> blank32.

(** Two stars of [image32], and the canvas with both drawn. *)
Definition pair32 : list XY := [XY.mk 22 16; XY.mk 3 25].
Definition drawn32 : list Z := draw_all image32 pair32 blank32.

(* ================================================================= *)
(** * Unfolding equations

    The hash is a long chain of shared intermediate values; proofs reason
    about it through the equations below and never by reduction. *)

Lemma phase_unfold s frame :
  phase s frame
  = (wrap32 (Z.shiftr (HashPair (XY.x s) (XY.y s)) 4 + wrap32 frame) / 5) mod 4.
Proof. reflexivity. Qed.

Lemma Hash_range bytes : 0 <= Hash bytes < 2 ^ 32.
Proof. unfold Hash, wrap32. apply Z.mod_pos_bound. lia. Qed.

Lemma HashPair_range x y : 0 <= HashPair x y < 2 ^ 32.
Proof. apply Hash_range. Qed.

#[global] Opaque Hash HashPair IsStarLocation phase.

Lemma fold_left_cons {A B} (f : A -> B -> A) (b : B) (l : list B) (a : A) :
  fold_left f (b :: l) a = fold_left f l (f a b).
Proof. reflexivity. Qed.

Lemma fold_left_nil {A B} (f : A -> B -> A) (a : A) :
  fold_left f [] a = a.
Proof. reflexivity. Qed.

Lemma list_bind_cons {A B} (f : A -> list B) (a : A) (l : list A) :
  (a :: l) ≫= f = f a ++ (l ≫= f).
Proof. reflexivity. Qed.

(* ================================================================= *)
(** * Stores *)

Lemma length_apply_store pixels st :
  length (apply_store pixels st) = length pixels.
Proof.
  unfold apply_store. destruct (st.1 <? 0); [done|]. apply length_insert.
Qed.

Lemma length_apply_stores sts pixels :
  length (apply_stores sts pixels) = length pixels.
Proof.
  revert pixels. induction sts as [|st sts IH]; intros pixels; [done|].
  simpl. rewrite IH. apply length_apply_store.
Qed.

Lemma apply_stores_app sts1 sts2 pixels :
  apply_stores (sts1 ++ sts2) pixels = apply_stores sts2 (apply_stores sts1 pixels).
Proof. apply fold_left_app. Qed.

Lemma lookup_apply_store pixels st (n : nat) :
  apply_store pixels st !! n =
    if (st.1 =? Z.of_nat n) && bool_decide (n < length pixels)%nat
    then Some st.2 else pixels !! n.
Proof.
  unfold apply_store. destruct (Z.ltb_spec (st.1) 0) as [Hneg|Hpos].
  - destruct (Z.eqb_spec (st.1) (Z.of_nat n)); [lia|done].
  - destruct (Z.eqb_spec (st.1) (Z.of_nat n)) as [Heq|Hne]; simpl.
    + replace (Z.to_nat st.1) with n by lia. case_bool_decide.
      * by apply list_lookup_insert_eq.
      * rewrite list_insert_ge; [done|lia].
    + apply list_lookup_insert_ne. lia.
Qed.

(** After a run of stores a byte holds the last value stored to it, or
    else what it held before. *)
Lemma lookup_apply_stores sts pixels (n : nat) :
  apply_stores sts pixels !! n =
    match last_store sts (Z.of_nat n) with
    | Some b => if bool_decide (n < length pixels)%nat then Some b else None
    | None => pixels !! n
    end.
Proof.
  revert pixels. induction sts as [|st sts IH]; intros pixels; [done|].
  simpl. rewrite IH, length_apply_store.
  destruct (last_store sts (Z.of_nat n)) as [b|]; [done|].
  rewrite lookup_apply_store.
  destruct (st.1 =? Z.of_nat n); simpl; [|done].
  case_bool_decide as Hn; [done|]. apply lookup_ge_None_2. lia.
Qed.

Lemma last_store_Some sts k b :
  last_store sts k = Some b -> (k, b) ∈ sts.
Proof.
  induction sts as [|[o v] sts IH]; simpl; [done|].
  destruct (last_store sts k) as [b'|].
  - intros. right. by apply IH.
  - simpl. destruct (Z.eqb_spec o k); [|done].
    intros [= <-]. subst. left.
Qed.

Lemma last_store_None sts k :
  last_store sts k = None <-> forall b, (k, b) ∉ sts.
Proof.
  induction sts as [|[o v] sts IH]; simpl.
  - split; [|done]. intros _ b. apply not_elem_of_nil.
  - destruct (last_store sts k) as [b'|] eqn:E.
    + split; [done|]. intros H. exfalso. apply (H b'). right.
      by apply last_store_Some.
    + simpl. destruct (Z.eqb_spec o k) as [->|Hne].
      * split; [done|]. intros H. exfalso. apply (H v). left.
      * split; [|done]. intros _ b [[= ? ?]|Hin]%elem_of_cons; [done|].
        by apply (proj1 IH eq_refl b).
Qed.

(** Stores whose targets and values do not depend on the buffer can be
    replayed without effect. *)
Lemma apply_stores_idem sts pixels :
  apply_stores sts (apply_stores sts pixels) = apply_stores sts pixels.
Proof.
  apply list_eq. intros n.
  rewrite (lookup_apply_stores sts (apply_stores sts pixels)).
  rewrite length_apply_stores.
  destruct (last_store sts (Z.of_nat n)) as [b|] eqn:E; [|done].
  by rewrite lookup_apply_stores, E.
Qed.

Lemma render_star_unfold image frame pixels s :
  render_star image frame pixels s
  = apply_stores (render_star_stores image frame s) pixels.
Proof. reflexivity. Qed.

Lemma render_apply_stores image stars frame pixels :
  render image stars frame pixels
  = apply_stores (render_stores image stars frame) pixels.
Proof.
  unfold render, render_stores. revert pixels.
  induction stars as [|s stars IH]; intros pixels; [reflexivity|].
  rewrite fold_left_cons, list_bind_cons, apply_stores_app, <- IH.
  rewrite render_star_unfold. reflexivity.
Qed.

(* ================================================================= *)
(** * The frame renderer *)

Lemma store_in_canvas_bounds image st :
  store_in_canvas image st -> 0 <= st.1 < PNG_IMAGE_SIZE image.
Proof.
  intros (s & c & [Hx Hy] & Hc & ->). unfold PNG_IMAGE_SIZE.
  destruct s as [sx sy]; simpl in *. nia.
Qed.

Lemma elem_of_DrawPixel_stores image x y st :
  st ∈ DrawPixel_stores image x y <->
  in_canvas image (XY.mk x y)
  /\ (st = ((y * width image + x) * 2, 0)
      \/ st = ((y * width image + x) * 2 + 1, 255)).
Proof.
  unfold DrawPixel_stores, in_canvas; simpl.
  destruct (Z.leb_spec 0 x), (Z.ltb_spec x (width image)),
    (Z.leb_spec 0 y), (Z.ltb_spec y (height image)); simpl;
    rewrite ?elem_of_cons, ?elem_of_nil; intuition lia.
Qed.

Lemma DrawPixel_stores_in_canvas image x y :
  Forall (store_in_canvas image) (DrawPixel_stores image x y).
Proof.
  apply Forall_forall. intros st [Hin Hst]%elem_of_DrawPixel_stores.
  exists (XY.mk x y). destruct Hst as [-> | ->]; simpl.
  - exists 0. split; [done|]. split; [by left|lia].
  - exists 1. split; [done|]. split; [by right|lia].
Qed.

Lemma glitter_of_cases j :
  (j = 0 /\ glitter_of j = Erase)
  \/ ((j = 1 \/ j = 3) /\ glitter_of j = Plain)
  \/ (j <> 0 /\ j <> 1 /\ j <> 3 /\ glitter_of j = Glitter).
Proof.
  unfold glitter_of.
  destruct (Z.eqb_spec j 0), (Z.eqb_spec j 1), (Z.eqb_spec j 3); simpl;
    intuition lia.
Qed.

(** Which bytes one iteration of the render loop stores to, and what. *)
Lemma elem_of_render_star_stores image frame s st :
  st ∈ render_star_stores image frame s <->
  (phase s frame = 0
   /\ (st = ((XY.y s * width image + XY.x s) * 2, 0)
       \/ st = ((XY.y s * width image + XY.x s) * 2 + 1, 0)))
  \/ (glitter_of (phase s frame) = Glitter
      /\ exists q, q ∈ tail (star_pixels s) /\ in_canvas image q
         /\ (st = ((XY.y q * width image + XY.x q) * 2, 0)
             \/ st = ((XY.y q * width image + XY.x q) * 2 + 1, 255))).
Proof.
  unfold render_star_stores.
  destruct (glitter_of_cases (phase s frame))
    as [[Hj ->] | [[Hj ->] | (H0 & H1 & H3 & ->)]].
  - rewrite !elem_of_cons, elem_of_nil. split.
    + intros [-> | [-> | []]]; left; auto.
    + intros [[_ [-> | ->]] | [? _]]; [auto | auto | done].
  - rewrite elem_of_nil. split; [done|].
    intros [[? _] | [? _]]; [lia | done].
  - rewrite !elem_of_app, !elem_of_DrawPixel_stores. unfold star_pixels; simpl.
    split.
    + intros [[Hc Hs] | [[Hc Hs] | [[Hc Hs] | [Hc Hs]]]]; right;
        (split; [done|]); eexists; (split; [|split; [exact Hc|exact Hs]]);
        rewrite !elem_of_cons; auto.
    + intros [[? _] | [_ (q & Hq & Hc & Hs)]]; [lia|].
      rewrite !elem_of_cons, elem_of_nil in Hq.
      destruct Hq as [-> | [-> | [-> | [-> | []]]]]; auto.
Qed.

Lemma render_star_stores_in_canvas image frame s :
  in_canvas image s ->
  Forall (store_in_canvas image) (render_star_stores image frame s).
Proof.
  intros Hs. apply Forall_forall. intros st.
  rewrite elem_of_render_star_stores.
  intros [[_ Hst] | [_ (q & _ & Hq & Hst)]].
  - exists s. destruct Hst as [-> | ->]; simpl.
    + exists 0. split; [done|]. split; [by left|lia].
    + exists 1. split; [done|]. split; [by right|done].
  - exists q. destruct Hst as [-> | ->]; simpl.
    + exists 0. split; [done|]. split; [by left|lia].
    + exists 1. split; [done|]. split; [by right|done].
Qed.

(** C7.  Rendering the same frame twice in a row leaves the pixel buffer
    as rendering it once does. *)
Theorem render_idempotent image stars frame pixels :
  render image stars frame (render image stars frame pixels)
  = render image stars frame pixels.
Proof. rewrite !render_apply_stores. apply apply_stores_idem. Qed.

(** C3 (as amended).  A call of the render loop fixes, from the registry and
    the frame number alone, the bytes it stores to: the centre of a star in
    phase 0 and the in-canvas cardinal neighbours of a star in phase 2.
    On two prior buffers of one size such a byte ends the same; a byte the
    loop does not store to keeps its prior content. *)
Theorem render_fixes_stored_bytes image stars frame pixels1 pixels2 (n : nat) :
  length pixels1 = length pixels2 ->
  ((exists b, (Z.of_nat n, b) ∈ render_stores image stars frame) ->
     render image stars frame pixels1 !! n = render image stars frame pixels2 !! n)
  /\ ((forall b, (Z.of_nat n, b) ∉ render_stores image stars frame) ->
        render image stars frame pixels1 !! n = pixels1 !! n)
  /\ (forall st, st ∈ render_stores image stars frame <->
        exists s, s ∈ stars /\
          ((phase s frame = 0
            /\ (st = ((XY.y s * width image + XY.x s) * 2, 0)
                \/ st = ((XY.y s * width image + XY.x s) * 2 + 1, 0)))
           \/ (phase s frame = 2
               /\ exists q, q ∈ tail (star_pixels s) /\ in_canvas image q
                  /\ (st = ((XY.y q * width image + XY.x q) * 2, 0)
                      \/ st = ((XY.y q * width image + XY.x q) * 2 + 1, 255))))).
Proof.
  intros Hlen. rewrite !render_apply_stores, !lookup_apply_stores, Hlen.
  split; [|split].
  - intros [b Hb].
    destruct (last_store _ _) as [b'|] eqn:E; [done|].
    exfalso. by apply (proj1 (last_store_None _ _) E b).
  - intros Hno. apply last_store_None in Hno. by rewrite Hno.
  - intros st. unfold render_stores. rewrite list_elem_of_bind.
    assert (forall s, glitter_of (phase s frame) = Glitter <-> phase s frame = 2)
      as Hg.
    { intros s. assert (0 <= phase s frame < 4) as Hr
        by (rewrite phase_unfold; apply Z.mod_pos_bound; lia).
      destruct (glitter_of_cases (phase s frame))
        as [[? Hj] | [[? Hj] | (? & ? & ? & Hj)]]; rewrite Hj;
        split; try done; lia. }
    split.
    + intros (s & Hst & Hs). exists s. split; [done|].
      apply elem_of_render_star_stores in Hst. rewrite <- Hg. done.
    + intros (s & Hs & Hst). exists s. split; [|done].
      apply elem_of_render_star_stores. rewrite Hg. done.
Qed.

Lemma render_fixes_stored_bytes_witness :
  length fresh67 = length glittered67 /\
  render image10 [star67] 10 fresh67 !! 150%nat
  = render image10 [star67] 10 glittered67 !! 150%nat.
Proof.
  split; [vm_compute; reflexivity|].
  refine (proj1 (render_fixes_stored_bytes image10 [star67] 10 fresh67
                   glittered67 150 _) _).
  - vm_compute. reflexivity.
  - exists 0. vm_compute. left.
Defined.

(** C3 (as stated) fails.  Placement on the transparent 10x10 canvas
    leaves the registry [(6,7)] and that pixel opaque.  The star is in
    phase 2 (glitter) at frame 10 and in phase 3 (plain) at frame 15.
    Rendering frame 15 on the canvas as placement left it shows the
    neighbour (5,7) transparent; rendering frame 15 on the same canvas
    after frame 10 was rendered on it shows (5,7) opaque. *)
Lemma render_depends_on_prior_canvas :
  generate sample_RAND_MAX sample_rand zeros_beyond image10 blank10
  ≫= (fun st => Some (registry st, vs_pixels st)) = Some ([star67], fresh67)
  /\ phase star67 10 = 2 /\ phase star67 15 = 3
  /\ pixel_at image10 (render image10 [star67] 15 fresh67) (XY.mk 5 7)
     = Some (0, 0)
  /\ pixel_at image10 (render image10 [star67] 15 glittered67) (XY.mk 5 7)
     = Some (0, 255).
Proof. vm_compute. done. Qed.

(* ================================================================= *)
(** * The animation phase *)

Lemma phase_offset_range s :
  0 <= Z.shiftr (HashPair (XY.x s) (XY.y s)) 4 < 268435456.
Proof.
  pose proof (HashPair_range (XY.x s) (XY.y s)) as Hh.
  rewrite Z.shiftr_div_pow2 by lia.
  change (2 ^ 32) with 4294967296 in Hh. change (2 ^ 4) with 16.
  split; [apply Z.div_pos; lia | apply Z.div_lt_upper_bound; lia].
Qed.

(** For the frame numbers of an [int] that are not negative the unsigned
    sum does not wrap. *)
Lemma phase_no_wrap s f :
  0 <= f <= INT_MAX ->
  phase s f = ((Z.shiftr (HashPair (XY.x s) (XY.y s)) 4 + f) / 5) mod 4.
Proof.
  intros Hf. pose proof (phase_offset_range s) as Hh. unfold INT_MAX in Hf.
  rewrite phase_unfold. unfold wrap32. change (2 ^ 32) with 4294967296.
  rewrite (Z.mod_small f) by lia. rewrite (Z.mod_small (_ + f)) by lia. done.
Qed.

(** C4.  For a star and a frame number [f >= 0] (an [int]): the phase is
    [(((Hash >> 4) + f) / 5) % 4] with floor division.  With
    [r = ((Hash >> 4) + f) mod 20] the place of the frame in the period,
    which advances by one per frame, the phase is [r / 5]: five frames of
    erase (0), five of plain (1), five of glitter (2), five of plain (3).
    Five frames later the phase is the next one of the cycle, and twenty
    frames later it is the same again. *)
Theorem phase_cycle s f :
  0 <= f -> f + 20 <= INT_MAX ->
  phase s f = ((Z.shiftr (HashPair (XY.x s) (XY.y s)) 4 + f) / 5) mod 4
  /\ phase s (f + 20) = phase s f
  /\ phase s f = ((Z.shiftr (HashPair (XY.x s) (XY.y s)) 4 + f) mod 20) / 5
  /\ (Z.shiftr (HashPair (XY.x s) (XY.y s)) 4 + (f + 1)) mod 20
     = ((Z.shiftr (HashPair (XY.x s) (XY.y s)) 4 + f) mod 20 + 1) mod 20
  /\ phase s (f + 5) = (phase s f + 1) mod 4
  /\ glitter_of (phase s f)
     = nth (Z.to_nat (phase s f)) [Erase; Plain; Glitter; Plain] Plain.
Proof.
  intros Hf0 Hf20. unfold INT_MAX in Hf20.
  rewrite !phase_no_wrap by (unfold INT_MAX; lia).
  pose proof (phase_offset_range s) as Hh.
  set (h := Z.shiftr (HashPair (XY.x s) (XY.y s)) 4) in *.
  repeat split.
  - Z.to_euclidean_division_equations; lia.
  - Z.to_euclidean_division_equations; lia.
  - Z.to_euclidean_division_equations; lia.
  - Z.to_euclidean_division_equations; lia.
  - assert (0 <= ((h + f) / 5) mod 4 < 4) as Hr by (apply Z.mod_pos_bound; lia).
    set (j := ((h + f) / 5) mod 4) in *.
    assert (j = 0 \/ j = 1 \/ j = 2 \/ j = 3) as [-> | [-> | [-> | ->]]] by lia;
      reflexivity.
Qed.

Lemma phase_cycle_witness :
  phase star67 0 = 0 /\ phase star67 20 = phase star67 0.
Proof.
  destruct (phase_cycle star67 0) as (H1 & H2 & _); [lia | unfold INT_MAX; lia |].
  split; [rewrite H1; vm_compute; reflexivity | exact H2].
Defined.

(** No shorter shift of the frame number is a period of the phase. *)
Lemma phase_period_minimal s p :
  0 < p < 20 ->
  exists f, 0 <= f < 40 /\ phase s (f + p) <> phase s f.
Proof.
  intros Hp. pose proof (phase_offset_range s) as Hh.
  set (h := Z.shiftr (HashPair (XY.x s) (XY.y s)) 4) in *.
  set (f0 := (20 - h mod 20) mod 20).
  assert (0 <= f0 < 20) as Hf0 by (apply Z.mod_pos_bound; lia).
  assert ((h + f0) mod 20 = 0) as Hal.
  { subst f0. Z.to_euclidean_division_equations; lia. }
  destruct (Z.lt_ge_cases p 5) as [Hsmall|Hbig].
  - exists (f0 + 4). split; [lia|].
    rewrite !phase_no_wrap by (unfold INT_MAX; lia). fold h.
    Z.to_euclidean_division_equations; lia.
  - exists f0. split; [lia|].
    rewrite !phase_no_wrap by (unfold INT_MAX; lia). fold h.
    Z.to_euclidean_division_equations; lia.
Qed.

(* ================================================================= *)
(** * The proximity test *)

Lemma Max_spec a b : Max a b = Z.max a b.
Proof. unfold Max. destruct (Z.gtb_spec a b); lia. Qed.

Lemma Min_spec a b : Min a b = Z.min a b.
Proof. unfold Min. destruct (Z.ltb_spec a b); lia. Qed.

Lemma scan_row_true read image x y iy ix n :
  (scan_row read image x y iy ix n).2 = true <->
  forall k, ix <= k < ix + Z.of_nat n ->
    (x - k) * (x - k) + (y - iy) * (y - iy) <= RADIUS * RADIUS ->
    read ((iy * width image + k) * 2 + 1) = 0.
Proof.
  revert ix. induction n as [|n IH]; intros ix.
  - simpl. split; [lia|done].
  - cbn [scan_row].
    destruct (Z.gtb_spec ((x - ix) * (x - ix) + (y - iy) * (y - iy))
                (RADIUS * RADIUS)) as [Hfar|Hnear].
    + rewrite IH. split; intros H k Hk Hd.
      * apply H; [|done]. destruct (decide (k = ix)) as [->|]; lia.
      * apply H; [lia|done].
    + destruct (Z.eqb_spec (read ((iy * width image + ix) * 2 + 1)) 0)
        as [Hz|Hnz]; cbn [snd].
      * rewrite IH. split; intros H k Hk Hd.
        -- destruct (decide (k = ix)) as [->|]; [done|]. apply H; [lia|done].
        -- apply H; [lia|done].
      * split; [done|]. intros H. exfalso. apply Hnz, H; lia.
Qed.

Lemma scan_rows_true read image x y iy n :
  (scan_rows read image x y iy n).2 = true <->
  forall r, iy <= r < iy + Z.of_nat n ->
    forall k, Max (x - RADIUS) 0 <= k <= Min (x + RADIUS) (width image) ->
      (x - k) * (x - k) + (y - r) * (y - r) <= RADIUS * RADIUS ->
      read ((r * width image + k) * 2 + 1) = 0.
Proof.
  revert iy. induction n as [|n IH]; intros iy.
  - simpl. split; [lia|done].
  - cbn [scan_rows].
    set (lo := Max (x - RADIUS) 0). set (hi := Min (x + RADIUS) (width image)).
    destruct (scan_row read image x y iy lo (Z.to_nat (hi - lo + 1))).2 eqn:Erow.
    + cbn [snd]. rewrite IH.
      pose proof (proj1 (scan_row_true read image x y iy lo _) Erow) as Hrow.
      split; intros H r Hr k Hk Hd.
      * destruct (decide (r = iy)) as [->|]; [apply Hrow; [lia|done]|].
        apply H; [lia|done|done].
      * apply H; [lia|done|done].
    + rewrite Erow. split; [done|]. intros H.
      assert ((scan_row read image x y iy lo (Z.to_nat (hi - lo + 1))).2 = true)
        as Habs; [|congruence].
      apply (proj2 (scan_row_true read image x y iy lo _)).
      intros k Hk Hd. apply H; [lia|lia|done].
Qed.

(** What the result 1 of [IsEmptyRegion] says about the buffer. *)
Lemma IsEmptyRegion_true beyond image pixels x y :
  IsEmptyRegion beyond image pixels x y = true <->
  forall ix iy,
    Max (x - RADIUS) 0 <= ix <= Min (x + RADIUS) (width image) ->
    Max (y - RADIUS) 0 <= iy <= Min (y + RADIUS) (height image) ->
    (x - ix) * (x - ix) + (y - iy) * (y - iy) <= RADIUS * RADIUS ->
    load beyond pixels ((iy * width image + ix) * 2 + 1) = 0.
Proof.
  unfold IsEmptyRegion, IsEmptyRegion_scan. rewrite scan_rows_true.
  split; intros H.
  - intros ix iy Hx Hy Hd. apply H; [lia|done|done].
  - intros r Hr k Hk Hd. apply H; [done|lia|done].
Qed.

(** The scan stays in the closed rectangle the two loops range over. *)
Lemma scan_row_reads read image x y iy ix n p :
  p ∈ (scan_row read image x y iy ix n).1 ->
  p.2 = iy /\ ix <= p.1 < ix + Z.of_nat n.
Proof.
  revert ix. induction n as [|n IH]; intros ix; cbn [scan_row].
  - intros []%elem_of_nil.
  - destruct (_ >? _).
    + intros [? ?]%IH. lia.
    + destruct (_ =? _); cbn [fst].
      * intros [->|[? ?]%IH]%elem_of_cons; simpl; lia.
      * intros ->%list_elem_of_singleton; simpl; lia.
Qed.

Lemma scan_rows_reads read image x y iy n p :
  p ∈ (scan_rows read image x y iy n).1 ->
  iy <= p.2 < iy + Z.of_nat n
  /\ Max (x - RADIUS) 0 <= p.1 <= Min (x + RADIUS) (width image).
Proof.
  revert iy. induction n as [|n IH]; intros iy; cbn [scan_rows].
  - intros []%elem_of_nil.
  - destruct (scan_row _ _ _ _ _ _ _).2; cbn [fst].
    + intros [[? ?]%scan_row_reads|[? ?]%IH]%elem_of_app; lia.
    + intros [? ?]%scan_row_reads; lia.
Qed.

(* ================================================================= *)
(** * The random source

    [RandomInt(a, b)] computes in binary64.  Its operations are specified
    by the rounding of [SpecFloat]; the lemmas below bound the result of
    that rounding and derive the range of [RandomInt(0, i)] from the range
    of [rand()]. *)

Ltac hide_pow :=
  repeat match goal with
         | |- context [2 ^ ?k] => let x := fresh "pw" in set (x := 2 ^ k) in *; clearbody x
         | H : context [2 ^ ?k] |- _ => let x := fresh "pw" in set (x := 2 ^ k) in *; clearbody x
         end.

Lemma digits2_pos_bounds p :
  2 ^ (Zpos (digits2_pos p) - 1) <= Zpos p < 2 ^ Zpos (digits2_pos p).
Proof.
  induction p as [p IH|p IH|]; cbn [digits2_pos].
  - rewrite Pos2Z.inj_succ.
    replace (Z.succ (Z.pos (digits2_pos p)) - 1)
      with (Z.succ (Z.pos (digits2_pos p) - 1)) by lia.
    rewrite !Z.pow_succ_r by lia. hide_pow. lia.
  - rewrite Pos2Z.inj_succ.
    replace (Z.succ (Z.pos (digits2_pos p)) - 1)
      with (Z.succ (Z.pos (digits2_pos p) - 1)) by lia.
    rewrite !Z.pow_succ_r by lia. hide_pow. lia.
  - simpl. lia.
Qed.

Lemma Zdigits2_le m k : 0 <= m -> 0 <= k -> m < 2 ^ k -> Zdigits2 m <= k.
Proof.
  intros Hm Hk Hlt. destruct m as [|p|p]; [done| |lia]. cbn [Zdigits2].
  pose proof (digits2_pos_bounds p) as [Hlo _].
  assert (2 ^ (Z.pos (digits2_pos p) - 1) < 2 ^ k) as Hpow by lia.
  apply Z.pow_lt_mono_r_iff in Hpow; lia.
Qed.

Lemma Zdigits2_mono m n : 0 < m <= n -> Zdigits2 m <= Zdigits2 n.
Proof.
  intros Hmn. destruct m as [|p|p]; [lia| |lia]. destruct n as [|q|q]; [lia| |lia].
  cbn [Zdigits2].
  pose proof (digits2_pos_bounds p) as [Hlo _].
  pose proof (digits2_pos_bounds q) as [_ Hhi].
  assert (2 ^ (Z.pos (digits2_pos p) - 1) < 2 ^ Z.pos (digits2_pos q)) as Hpow by lia.
  apply Z.pow_lt_mono_r_iff in Hpow; lia.
Qed.

Lemma shr_1_fits B mrs e :
  fits_below B mrs e -> fits_below B (shr_1 mrs) (e + 1).
Proof.
  destruct mrs as [m r s]. intros [Hm Hb]. cbn [shr_m shr_r shr_s] in Hm, Hb.
  assert (e + 1 <= 0 -> B * 2 ^ (- e) = 2 * (B * 2 ^ (- (e + 1)))) as Hpow.
  { intros He. replace (- e) with (Z.succ (- (e + 1))) by lia.
    rewrite Z.pow_succ_r by lia. ring. }
  unfold shr_1, fits_below.
  destruct m as [|[p|p|]|p]; [..|lia]; cbn [shr_m shr_r shr_s];
    (split; [lia|]); intros He;
    specialize (Hb ltac:(lia)); rewrite (Hpow He) in Hb; clear Hpow;
    (destruct Hb as [Hb | (Hb & -> & ->)]; [left; hide_pow; lia|]);
    cbn [orb];
    first [ exfalso; hide_pow; lia | right; split; [hide_pow; lia|done] ].
Qed.

Lemma iter_pos_shr_1_fits B p : forall mrs e,
  fits_below B mrs e -> fits_below B (SpecFloat.iter_pos shr_1 p mrs) (e + Zpos p).
Proof.
  induction p as [p IH|p IH|]; intros mrs e H; cbn [SpecFloat.iter_pos].
  - replace (e + Z.pos p~1) with (((e + 1) + Z.pos p) + Z.pos p) by lia.
    by apply IH, IH, shr_1_fits.
  - replace (e + Z.pos p~0) with ((e + Z.pos p) + Z.pos p) by lia.
    by apply IH, IH.
  - by apply shr_1_fits.
Qed.

Lemma pow2_split (a b : Z) : 0 <= a -> 0 <= b -> 2 ^ (a + b) = 2 ^ a * 2 ^ b.
Proof. intros. by apply Z.pow_add_r. Qed.

Lemma shr_fexp_fits B m e l mrs' e' :
  0 <= B < 2 ^ 53 -> 0 <= m -> e <= 0 ->
  (m < B * 2 ^ (- e) \/ (m = B * 2 ^ (- e) /\ l = loc_Exact)) ->
  shr_fexp prec emax m e l = (mrs', e') ->
  e' <= 0 /\ fits_below B mrs' e'.
Proof.
  intros HB Hm He Hb. unfold shr_fexp, shr.
  assert (fits_below B (shr_record_of_loc m l) e) as Hfit.
  { split; [by destruct l as [|[]]|]. intros _.
    destruct Hb as [Hb | [Hb ->]]; [left; by destruct l as [|[]]|by right]. }
  assert (Zdigits2 m + e <= 53) as Hd.
  { assert (Zdigits2 m <= 53 - e); [|lia].
    apply Zdigits2_le; [done|lia|].
    replace (53 - e) with (53 + - e) by lia. rewrite pow2_split by lia.
    assert (0 < 2 ^ (- e)) by (apply Z.pow_pos_nonneg; lia). nia. }
  destruct (fexp prec emax (Zdigits2 m + e) - e) as [|p|p] eqn:En;
    intros [= <- <-]; [done| |done].
  split; [|by apply iter_pos_shr_1_fits].
  unfold fexp, SpecFloat.emin, prec, emax in En. lia.
Qed.

Lemma round_nearest_even_fits B mrs e :
  e <= 0 -> fits_below B mrs e ->
  0 <= round_nearest_even (shr_m mrs) (loc_of_shr_record mrs) <= B * 2 ^ (- e).
Proof.
  intros He [Hm Hb]. specialize (Hb He). destruct mrs as [m r s].
  cbn [shr_m shr_r shr_s] in *. unfold round_nearest_even, loc_of_shr_record.
  destruct r, s; try (destruct (Z.even m)); lia.
Qed.

(** Rounding a value that does not exceed an integer [B < 2^53] gives a
    binary64 number that does not exceed [B]. *)
Lemma binary_round_aux_bound B s m e l s' m' e' :
  0 <= B < 2 ^ 53 -> 0 <= m -> e <= 0 ->
  (m < B * 2 ^ (- e) \/ (m = B * 2 ^ (- e) /\ l = loc_Exact)) ->
  binary_round_aux prec emax s m e l = S754_finite s' m' e' ->
  s' = s /\ e' <= 0 /\ Zpos m' <= B * 2 ^ (- e').
Proof.
  intros HB Hm He Hb. unfold binary_round_aux.
  destruct (shr_fexp prec emax m e l) as [mrs1 e1] eqn:E1.
  destruct (shr_fexp_fits B m e l mrs1 e1 HB Hm He Hb E1) as [He1 Hfit1].
  pose proof (round_nearest_even_fits B mrs1 e1 He1 Hfit1) as Hr.
  destruct (shr_fexp prec emax
              (round_nearest_even (shr_m mrs1) (loc_of_shr_record mrs1))
              e1 loc_Exact) as [mrs2 e2] eqn:E2.
  apply (shr_fexp_fits B) in E2 as [He2 [_ Hfit2]]; [|done|lia|done|];
    [|destruct (Z.eq_dec (round_nearest_even (shr_m mrs1) (loc_of_shr_record mrs1))
                  (B * 2 ^ (- e1))); [by right|left; lia]].
  specialize (Hfit2 He2).
  destruct (shr_m mrs2) as [|p|p] eqn:Em; [done| |done].
  destruct (e2 <=? emax - prec); [|done].
  intros [= <- <- <-]. split; [done|]. split; [done|].
  destruct Hfit2 as [? | [? _]]; lia.
Qed.

Lemma new_location_exact n : new_location n 0 = loc_Exact.
Proof. unfold new_location. by destruct (Z.even n). Qed.

Lemma SFdiv_core_binary_le_one m1 e1 m2 e2 q eq lq :
  e1 <= e2 -> Zpos m1 <= Zpos m2 * 2 ^ (e2 - e1) ->
  SFdiv_core_binary prec emax (Zpos m1) e1 (Zpos m2) e2 = (q, eq, lq) ->
  0 <= q /\ eq <= 0 /\ (q < 1 * 2 ^ (- eq) \/ (q = 1 * 2 ^ (- eq) /\ lq = loc_Exact)).
Proof.
  intros He Hle. unfold SFdiv_core_binary. cbv zeta.
  set (e0 := Z.min _ (e1 - e2)).
  assert (e0 <= e1 - e2) as He0 by apply Z.le_min_r.
  match goal with |- context [Z.div_eucl ?x _] => set (a := x) end.
  assert (a = Zpos m1 * 2 ^ (e1 - e2 - e0)) as Ha.
  { subst a. destruct (e1 - e2 - e0) as [|p|p] eqn:Es;
      [simpl; lia | apply Z.shiftl_mul_pow2; lia | lia]. }
  clearbody a.
  assert (0 < 2 ^ (e1 - e2 - e0)) as Hpos by (apply Z.pow_pos_nonneg; lia).
  assert (0 <= a <= Zpos m2 * 2 ^ (- e0)) as Hbound.
  { rewrite Ha. replace (- e0) with ((e2 - e1) + (e1 - e2 - e0)) by lia.
    rewrite pow2_split by lia. hide_pow. nia. }
  assert (0 < 2 ^ (- e0)) as Hpos' by (apply Z.pow_pos_nonneg; lia).
  pose proof (Z.div_mod a (Zpos m2) ltac:(lia)) as Hdm.
  pose proof (Z.mod_pos_bound a (Zpos m2) ltac:(lia)) as Hmod.
  assert (0 <= a / Zpos m2 <= 2 ^ (- e0)) as Hq.
  { split; [apply Z.div_pos; lia|]. apply Z.div_le_upper_bound; lia. }
  unfold Z.div, Z.modulo in Hdm, Hmod, Hq.
  destruct (Z.div_eucl a (Zpos m2)) as [q' r'].
  intros [= <- <- <-]. split; [lia|]. split; [lia|].
  rewrite Z.mul_1_l.
  destruct (Z.eq_dec q' (2 ^ (- e0))) as [Heq|Hne]; [right|left; lia].
  split; [done|].
  assert (r' = 0) as -> by (hide_pow; nia).
  apply new_location_exact.
Qed.

(** The quotient of two positive binary64 numbers [x <= y] is at most 1. *)
Lemma SFdiv_le_one m1 e1 m2 e2 s' m' e' :
  e1 <= e2 -> Zpos m1 <= Zpos m2 * 2 ^ (e2 - e1) ->
  SFdiv prec emax (S754_finite false m1 e1) (S754_finite false m2 e2)
  = S754_finite s' m' e' ->
  s' = false /\ e' <= 0 /\ Zpos m' <= 2 ^ (- e').
Proof.
  intros He Hle. unfold SFdiv.
  destruct (SFdiv_core_binary prec emax (Z.pos m1) e1 (Z.pos m2) e2)
    as [[q eq] lq] eqn:E.
  destruct (SFdiv_core_binary_le_one _ _ _ _ _ _ _ He Hle E) as (Hq & Heq & Hb).
  intros Hr. apply (binary_round_aux_bound 1) in Hr; [|lia|done..].
  cbn [xorb] in Hr. destruct Hr as (-> & ? & ?). split; [done|]. lia.
Qed.

(** The product of a binary64 number at most 1 and an integer [B < 2^53]
    is at most [B]. *)
Lemma SFmul_le B mq eq mi ei s' m' e' :
  0 <= B < 2 ^ 53 ->
  eq <= 0 -> Zpos mq <= 2 ^ (- eq) ->
  ei <= 0 -> Zpos mi = B * 2 ^ (- ei) ->
  SFmul prec emax (S754_finite false mq eq) (S754_finite false mi ei)
  = S754_finite s' m' e' ->
  s' = false /\ e' <= 0 /\ Zpos m' <= B * 2 ^ (- e').
Proof.
  intros HB Heq Hq Hei Hi. unfold SFmul. intros Hr.
  apply (binary_round_aux_bound B) in Hr; [done|done|lia|lia|].
  rewrite Pos2Z.inj_mul.
  assert (Zpos mq * Zpos mi <= B * 2 ^ (- (eq + ei))) as Hle.
  { replace (- (eq + ei)) with (- eq + - ei) by lia.
    rewrite pow2_split by lia. rewrite Hi.
    assert (0 < 2 ^ (- ei)) by (apply Z.pow_pos_nonneg; lia).
    hide_pow. nia. }
  destruct (Z.eq_dec (Zpos mq * Zpos mi) (B * 2 ^ (- (eq + ei))));
    [by right|left; lia].
Qed.

Lemma Pos_iter_xO p k :
  Zpos (Pos.iter xO p k) = Zpos p * 2 ^ Zpos k
  /\ Zpos (digits2_pos (Pos.iter xO p k)) = Zpos (digits2_pos p) + Zpos k.
Proof.
  induction k as [|k [IH1 IH2]] using Pos.peano_ind.
  - cbn [Pos.iter digits2_pos]. rewrite Pos2Z.inj_succ. lia.
  - rewrite Pos.iter_succ. cbn [digits2_pos].
    rewrite (Pos2Z.inj_xO (Pos.iter xO p k)), !Pos2Z.inj_succ, IH1, IH2.
    rewrite Z.pow_succ_r by lia. lia.
Qed.

(** A mantissa of 53 bits with an exponent in range is not rounded. *)
Lemma binary_round_aux_canonical s m e :
  Zpos (digits2_pos m) = 53 -> -1074 <= e <= 971 ->
  binary_round_aux prec emax s (Zpos m) e loc_Exact = S754_finite s m e.
Proof.
  intros Hd He.
  assert (fexp prec emax (53 + e) - e = 0) as Hz
    by (unfold fexp, SpecFloat.emin, prec, emax; lia).
  unfold binary_round_aux, shr_fexp. cbn [Zdigits2 shr_record_of_loc].
  rewrite Hd, Hz. cbn [shr shr_m loc_of_shr_record round_nearest_even Zdigits2
                        shr_record_of_loc].
  rewrite Hd, Hz. cbn [shr shr_m].
  destruct (Z.leb_spec e (emax - prec)) as [|Hgt]; [done|].
  unfold prec, emax in Hgt. lia.
Qed.

Lemma Prim2SF_double_of_int_0 : Prim2SF (double_of_int 0) = S754_zero false.
Proof.
  unfold double_of_int. cbn [Z.ltb Z.compare].
  by rewrite of_uint63_spec, Uint63.of_Z_spec.
Qed.

(** An integer of at most 53 bits converts to a binary64 number exactly. *)
Lemma Prim2SF_double_of_int n :
  0 < n < 2 ^ 53 ->
  exists m e, Prim2SF (double_of_int n) = S754_finite false m e
    /\ e = Zdigits2 n - 53 /\ e <= 0 /\ Zpos m = n * 2 ^ (- e).
Proof.
  intros Hn. unfold double_of_int. destruct (Z.ltb_spec n 0) as [|_]; [lia|].
  rewrite of_uint63_spec, Uint63.of_Z_spec.
  assert (2 ^ 53 < wB) as HwB by done.
  rewrite Z.mod_small by lia.
  destruct n as [|p|p]; [lia| |lia]. cbn [binary_normalize Zdigits2].
  pose proof (digits2_pos_bounds p) as [Hlo Hhi].
  assert (Zdigits2 (Zpos p) <= 53) as Hd by (apply Zdigits2_le; lia).
  cbn [Zdigits2] in Hd.
  unfold binary_round, shl_align.
  assert (fexp prec emax (Zpos (digits2_pos p) + 0) = Zpos (digits2_pos p) - 53)
    as -> by (unfold fexp, SpecFloat.emin, prec, emax; lia).
  destruct (Z.pos (digits2_pos p) - 53 - 0) as [|k|k] eqn:Ek; [|lia|].
  - rewrite binary_round_aux_canonical by lia.
    exists p, 0. split; [done|]. split; [lia|]. split; [lia|]. simpl. lia.
  - destruct (Pos_iter_xO p k) as [Hv Hdig].
    rewrite binary_round_aux_canonical by lia.
    eexists _, _. split; [done|]. split; [done|]. split; [lia|].
    rewrite Hv. f_equal. f_equal. lia.
Qed.

Lemma int_of_double_range d B :
  0 <= B ->
  (forall s m e, Prim2SF d = S754_finite s m e ->
     s = false /\ e <= 0 /\ Zpos m <= B * 2 ^ (- e)) ->
  0 <= int_of_double d <= B.
Proof.
  intros HB H. unfold int_of_double.
  destruct (Prim2SF d) as [| | |s m e]; [lia..|].
  destruct (H s m e eq_refl) as (-> & He & Hm).
  assert (0 < 2 ^ (- e)) by (apply Z.pow_pos_nonneg; lia).
  destruct (Z.leb_spec 0 e).
  - assert (e = 0) as -> by lia. rewrite Z.shiftl_0_r. simpl in Hm. lia.
  - rewrite Z.shiftr_div_pow2 by lia. split.
    + apply Z.div_pos; lia.
    + apply Z.div_le_upper_bound; lia.
Qed.

(** [RandomInt(0, i)] lies in [[0, i]] whenever [rand()] returned a
    value in [[0, RAND_MAX]]. *)
Lemma RandomInt_range RAND_MAX rand k i :
  RAND_MAX < 2 ^ 53 -> 0 <= rand k <= RAND_MAX -> 0 <= i < 2 ^ 53 ->
  0 <= RandomInt RAND_MAX rand k 0 i <= i.
Proof.
  intros HM Hr Hi. unfold RandomInt. rewrite Z.sub_0_r.
  apply int_of_double_range; [lia|]. intros s m e.
  rewrite add_spec, mul_spec, div_spec. unfold SF64add, SF64mul, SF64div.
  rewrite Prim2SF_double_of_int_0.
  destruct (Z.eq_dec (rand k) 0) as [->|Hr0].
  { rewrite Prim2SF_double_of_int_0.
    destruct (Prim2SF (double_of_int RAND_MAX)) as [[]|[]| |[]];
      destruct (Prim2SF (double_of_int i)) as [[]|[]| |[]]; done. }
  destruct (Prim2SF_double_of_int (rand k)) as (mr & er & -> & Her & Her' & Hmr);
    [lia|].
  destruct (Prim2SF_double_of_int RAND_MAX) as (mM & eM & -> & HeM & HeM' & HmM);
    [lia|].
  destruct (SFdiv prec emax (S754_finite false mr er) (S754_finite false mM eM))
    as [sq|sq| |sq mq eq] eqn:Eq.
  1-3: try destruct sq;
       destruct (Prim2SF (double_of_int i)) as [[]|[]| |[]]; done.
  assert (er <= eM) as Hee.
  { subst er eM. pose proof (Zdigits2_mono (rand k) RAND_MAX).
    clear Hmr HmM. lia. }
  assert (Zpos mr <= Zpos mM * 2 ^ (eM - er)) as Hmm.
  { rewrite Hmr, HmM, <- Z.mul_assoc.
    rewrite <- (pow2_split (- eM) (eM - er)) by (clear Hmr HmM; lia).
    replace (- eM + (eM - er)) with (- er) by (clear Hmr HmM; lia).
    assert (0 < 2 ^ (- er)) by (apply Z.pow_pos_nonneg; clear Hmr HmM; lia).
    clear Hmr HmM. hide_pow. nia. }
  apply SFdiv_le_one in Eq as (-> & Heq & Hq); [|done..].
  destruct (Z.eq_dec i 0) as [->|Hi0].
  { rewrite Prim2SF_double_of_int_0. done. }
  destruct (Prim2SF_double_of_int i) as (mi & ei & -> & Hei & Hei' & Hmi);
    [lia|].
  destruct (SFmul prec emax (S754_finite false mq eq) (S754_finite false mi ei))
    as [sp|sp| |sp mp ep] eqn:Ep.
  1-3: try destruct sp; done.
  cbn [SFadd]. intros [= <- <- <-].
  by apply (SFmul_le i mq eq mi ei).
Qed.

(** The swap indices of the shuffle lie in their ranges for every random
    source that keeps to [[0, RAND_MAX]], the array length being an
    [int]. *)
Lemma draws_in_range_of_rand RAND_MAX rand n :
  RAND_MAX <= INT_MAX -> rand_in_range RAND_MAX rand ->
  Z.of_nat n <= INT_MAX + 1 ->
  draws_in_range RAND_MAX rand n.
Proof.
  intros HM Hrand Hn i Hi. unfold swap_index.
  assert (INT_MAX < 2 ^ 53) as Hint by done.
  apply RandomInt_range; [lia|apply Hrand|lia].
Qed.

Lemma sample_rand_in_range : rand_in_range sample_RAND_MAX sample_rand.
Proof.
  assert (Forall (fun v => 0 <= v <= sample_RAND_MAX) sample_values) as Hall.
  { apply Forall_forall. intros v Hv.
    assert (forallb (fun v => (0 <=? v) && (v <=? sample_RAND_MAX)) sample_values
            = true) as Hb by (vm_compute; reflexivity).
    rewrite forallb_forall in Hb. apply list_elem_of_In, Hb in Hv. lia. }
  intros k. unfold sample_rand.
  destruct (nth_in_or_default k sample_values 0) as [Hin | ->].
  - rewrite Forall_forall in Hall. by apply Hall, list_elem_of_In.
  - unfold sample_RAND_MAX. lia.
Qed.

(* ================================================================= *)
(** * The shuffle *)

Lemma draws_in_rangeb_true RAND_MAX rand n :
  draws_in_rangeb RAND_MAX rand n = true -> draws_in_range RAND_MAX rand n.
Proof.
  unfold draws_in_rangeb, draws_in_range. rewrite forallb_forall.
  intros H i Hi. specialize (H i). rewrite in_seq in H.
  specialize (H ltac:(lia)). apply andb_prop in H as [H1 H2]. lia.
Qed.

Lemma elem_of_init_stars image s :
  s ∈ init_stars image <-> in_canvas image s.
Proof.
  unfold init_stars, in_canvas. rewrite list_elem_of_bind. split.
  - intros (y & Hs & Hy). apply list_elem_of_bind in Hs as (x & Hs & Hx).
    apply list_elem_of_singleton in Hs as ->. simpl.
    apply elem_of_seqZ in Hx, Hy. lia.
  - intros [Hx Hy]. exists (XY.y s). split; [|apply elem_of_seqZ; lia].
    apply list_elem_of_bind. exists (XY.x s). split; [|apply elem_of_seqZ; lia].
    destruct s; simpl. apply list_elem_of_singleton. done.
Qed.

Lemma NoDup_init_stars image : NoDup (init_stars image).
Proof.
  unfold init_stars. apply NoDup_bind; [| |apply NoDup_seqZ].
  - intros y1 y2 s _ _ (x1 & ->%list_elem_of_singleton & _)%list_elem_of_bind
      (x2 & Hs & _)%list_elem_of_bind.
    apply list_elem_of_singleton in Hs. congruence.
  - intros y _. apply NoDup_bind; [| |apply NoDup_seqZ].
    + intros x1 x2 s _ _ ->%list_elem_of_singleton Hs.
      apply list_elem_of_singleton in Hs. congruence.
    + intros x _. apply NoDup_singleton.
Qed.

Lemma length_bind_const {A B} (g : A -> list B) (n : nat) (l : list A) :
  (forall a, length (g a) = n) -> length (l ≫= g) = (length l * n)%nat.
Proof.
  intros Hg. induction l as [|a l IH]; [done|].
  rewrite list_bind_cons, length_app, IH, Hg. simpl. done.
Qed.

Lemma length_init_stars image :
  length (init_stars image) = (Z.to_nat (height image) * Z.to_nat (width image))%nat.
Proof.
  unfold init_stars.
  rewrite (length_bind_const _ (Z.to_nat (width image))), length_seqZ; [done|].
  intros y. rewrite (length_bind_const _ 1%nat), length_seqZ; [lia|done].
Qed.

Lemma swap_Some stars (i : nat) (j : Z) :
  (i < length stars)%nat -> 0 <= j < Z.of_nat (length stars) ->
  exists stars', swap stars i j = Some stars'
    /\ stars' ≡ₚ stars /\ length stars' = length stars.
Proof.
  intros Hi Hj. unfold swap.
  destruct (Z.ltb_spec j 0) as [|_]; [lia|].
  destruct (lookup_lt_is_Some_2 stars i Hi) as [a Ha].
  destruct (lookup_lt_is_Some_2 stars (Z.to_nat j) ltac:(lia)) as [b Hb].
  rewrite Ha, Hb. simpl. eexists. split; [done|]. split.
  - by apply Permutation_insert_swap.
  - by rewrite !length_insert.
Qed.

Lemma shuffle_from_Permutation RAND_MAX rand i calls stars :
  (i < length stars)%nat ->
  (forall i', (0 < i' <= i)%nat ->
     0 <= RandomInt RAND_MAX rand (calls + (i - i')) 0 (Z.of_nat i') <= Z.of_nat i') ->
  exists stars', shuffle_from RAND_MAX rand i calls stars = Some stars'
    /\ stars' ≡ₚ stars.
Proof.
  revert calls stars. induction i as [|i IH]; intros calls stars Hi Hdraw.
  - exists stars. done.
  - cbn [shuffle_from].
    pose proof (Hdraw (S i) ltac:(lia)) as Hj.
    replace (calls + (S i - S i))%nat with calls in Hj by lia.
    destruct (swap_Some stars (S i)
                (RandomInt RAND_MAX rand calls 0 (Z.of_nat (S i))))
      as (stars1 & -> & Hperm & Hlen); [done|lia|].
    simpl. destruct (IH (S calls) stars1) as (stars' & Heq & Hperm').
    + lia.
    + intros i' Hi'. specialize (Hdraw i' ltac:(lia)).
      replace (S calls + (i - i'))%nat with (calls + (S i - i'))%nat by lia.
      done.
    + exists stars'. split; [done|]. by rewrite Hperm'.
Qed.

Lemma shuffle_Permutation RAND_MAX rand stars :
  draws_in_range RAND_MAX rand (length stars) ->
  exists stars', shuffle RAND_MAX rand stars = Some stars' /\ stars' ≡ₚ stars.
Proof.
  intros Hdraw. unfold shuffle.
  destruct stars as [|s0 stars]; [by exists []|].
  apply shuffle_from_Permutation; [simpl; lia|].
  intros i' Hi'. simpl in Hi'. apply (Hdraw i'). simpl. lia.
Qed.

Lemma shuffled_in_canvas RAND_MAX rand image :
  draws_in_range RAND_MAX rand (length (init_stars image)) ->
  exists stars,
    shuffle RAND_MAX rand (init_stars image) = Some stars
    /\ Forall (in_canvas image) stars.
Proof.
  intros Hdraw.
  destruct (shuffle_Permutation RAND_MAX rand _ Hdraw) as (stars & Heq & Hperm).
  exists stars. split; [done|]. apply Forall_forall. intros s.
  rewrite Hperm. apply elem_of_init_stars.
Qed.

(** C8.  The shuffle loop ends, and it ends with a permutation of the
    row-major array of the W x H coordinates: no coordinate twice, and a
    coordinate is in the array exactly when it is one of the canvas.  The
    random source is any [rand()] whose values lie in [[0, RAND_MAX]];
    from that alone every swap index [RandomInt(0, i)], computed in
    binary64, lies in [[0, i]].  [RAND_MAX] and the number of coordinates
    are C [int]s. *)
Theorem shuffle_permutes_coordinates RAND_MAX rand image :
  RAND_MAX <= INT_MAX ->
  rand_in_range RAND_MAX rand ->
  width image * height image <= INT_MAX ->
  (forall (k : nat) i, 0 <= i <= INT_MAX ->
     0 <= RandomInt RAND_MAX rand k 0 i <= i)
  /\ draws_in_range RAND_MAX rand (length (init_stars image))
  /\ exists stars,
    shuffle RAND_MAX rand (init_stars image) = Some stars
    /\ stars ≡ₚ init_stars image
    /\ NoDup stars
    /\ (forall s, s ∈ stars <-> in_canvas image s)
    /\ length stars = (Z.to_nat (height image) * Z.to_nat (width image))%nat.
Proof.
  intros HM Hrand Hsize.
  assert (INT_MAX < 2 ^ 53) as Hint by done.
  assert (draws_in_range RAND_MAX rand (length (init_stars image))) as Hdraw.
  { apply draws_in_range_of_rand; [done..|]. rewrite length_init_stars.
    unfold INT_MAX in *. nia. }
  split; [intros k i Hi; apply RandomInt_range; [lia|apply Hrand|lia]|].
  split; [done|].
  destruct (shuffle_Permutation RAND_MAX rand _ Hdraw) as (stars & Heq & Hperm).
  exists stars. split; [done|]. split; [done|]. split; [|split].
  - rewrite Hperm. apply NoDup_init_stars.
  - intros s. rewrite Hperm. apply elem_of_init_stars.
  - rewrite Hperm. apply length_init_stars.
Qed.

Lemma shuffle_permutes_coordinates_witness :
  (forall (k : nat) i, 0 <= i <= INT_MAX ->
     0 <= RandomInt sample_RAND_MAX sample_rand k 0 i <= i)
  /\ draws_in_range sample_RAND_MAX sample_rand (length (init_stars image10))
  /\ exists stars,
    shuffle sample_RAND_MAX sample_rand (init_stars image10) = Some stars
    /\ stars ≡ₚ init_stars image10
    /\ NoDup stars
    /\ (forall s, s ∈ stars <-> in_canvas image10 s)
    /\ length stars = 100%nat.
Proof.
  apply (shuffle_permutes_coordinates sample_RAND_MAX sample_rand image10).
  - vm_compute. discriminate.
  - exact sample_rand_in_range.
  - vm_compute. discriminate.
Defined.

(* ================================================================= *)
(** * The candidate loop *)

Section Placement.
Variable beyond : nat -> Z -> Z.
Variable image : png_image.

Lemma visit_upto_S stars pixels k :
  visit_upto beyond image stars pixels (S k)
  = visit beyond image (visit_upto beyond image stars pixels k) k.
Proof. unfold visit_upto. by rewrite seq_S, fold_left_app. Qed.

Lemma place_append_app i cands1 cands2 reg pixels :
  place_append beyond image i (cands1 ++ cands2) reg pixels
  = place_append beyond image (i + length cands1) cands2
      (place_append beyond image i cands1 reg pixels).1
      (place_append beyond image i cands1 reg pixels).2.
Proof.
  revert i reg pixels.
  induction cands1 as [|s cands1 IH]; intros i reg pixels.
  - simpl. by rewrite Nat.add_0_r.
  - cbn [app place_append length].
    replace (i + S (length cands1))%nat with (S i + length cands1)%nat by lia.
    destruct (accepts beyond image pixels i s); apply IH.
Qed.

Lemma place_append_sublist i cands reg pixels :
  exists sel, (place_append beyond image i cands reg pixels).1 = reg ++ sel
    /\ sel `sublist_of` cands.
Proof.
  revert i reg pixels.
  induction cands as [|s cands IH]; intros i reg pixels.
  - exists []. simpl. by rewrite app_nil_r.
  - cbn [place_append]. destruct (accepts beyond image pixels i s).
    + destruct (IH (S i) (reg ++ [s])
                  (DrawPixel image pixels (XY.x s) (XY.y s))) as (sel & -> & Hsub).
      exists (s :: sel). rewrite <- app_assoc. split; [done|].
      by apply sublist_skip.
    + destruct (IH (S i) reg pixels) as (sel & -> & Hsub).
      exists sel. split; [done|]. by apply sublist_cons.
Qed.

(** The loop invariant of the in-place compaction. *)
Lemma visit_upto_invariant stars pixels k :
  (k <= length stars)%nat ->
  let st := visit_upto beyond image stars pixels k in
  (vs_star_count st <= k)%nat
  /\ length (vs_stars st) = length stars
  /\ (forall i, (k <= i)%nat -> vs_stars st !! i = stars !! i)
  /\ (registry st, vs_pixels st)
     = place_append beyond image 0 (take k stars) [] pixels.
Proof.
  induction k as [|k IH]; intros Hk.
  - simpl. unfold registry. simpl. done.
  - specialize (IH ltac:(lia)). rewrite visit_upto_S.
    set (st := visit_upto beyond image stars pixels k) in *.
    cbv zeta in IH. destruct IH as (Hcount & Hlen & Hrest & Happ).
    destruct (lookup_lt_is_Some_2 stars k ltac:(lia)) as [s Hs].
    rewrite (take_S_r _ _ _ Hs), place_append_app, <- Happ.
    rewrite length_take, Nat.min_l by lia. cbn [fst snd place_append].
    unfold visit. rewrite (Hrest k ltac:(lia)), Hs. simpl.
    destruct (accepts beyond image (vs_pixels st) k s); cbn.
    + split; [lia|]. split; [by rewrite length_insert|]. split.
      * intros i Hi. rewrite list_lookup_insert_ne by lia. apply Hrest. lia.
      * unfold registry. cbn.
        rewrite (take_S_r _ _ s) by (apply list_lookup_insert_eq; lia).
        by rewrite take_insert_ge by lia.
    + split; [lia|]. split; [done|]. split; [|done].
      intros i Hi. apply Hrest. lia.
Qed.
End Placement.

(** C10.  The in-place compaction is safe.  After any number [k] of
    iterations of the candidate loop the accepted-star count is at most
    the read index [k], the slots from [k] on still hold the candidates
    not visited yet, and the first [star_count] slots are the registry
    that appending each accepted candidate would have built, on the same
    pixel buffer: a subsequence, in visit order, of the candidates
    visited so far. *)
Theorem compaction_safe beyond image stars pixels k :
  (k <= length stars)%nat ->
  (vs_star_count (visit_upto beyond image stars pixels k) <= k)%nat
  /\ drop k (vs_stars (visit_upto beyond image stars pixels k)) = drop k stars
  /\ (registry (visit_upto beyond image stars pixels k),
      vs_pixels (visit_upto beyond image stars pixels k))
     = place_append beyond image 0 (take k stars) [] pixels
  /\ registry (visit_upto beyond image stars pixels k) `sublist_of` take k stars.
Proof.
  intros Hk.
  destruct (visit_upto_invariant beyond image stars pixels k Hk)
    as (Hcount & Hlen & Hrest & Happ).
  split; [done|]. split; [|split; [done|]].
  - apply list_eq. intros i. rewrite !lookup_drop. apply Hrest. lia.
  - destruct (place_append_sublist beyond image 0 (take k stars) [] pixels)
      as (sel & Hsel & Hsub).
    rewrite <- Happ in Hsel. simpl in Hsel. by rewrite Hsel.
Qed.

(* ================================================================= *)
(** * Isolation of the accepted stars *)

Lemma DrawPixel_stores_in image x y :
  in_canvas image (XY.mk x y) ->
  DrawPixel_stores image x y
  = [((y * width image + x) * 2, 0); ((y * width image + x) * 2 + 1, 255)].
Proof.
  unfold in_canvas, DrawPixel_stores; simpl. intros [Hx Hy].
  destruct (Z.leb_spec 0 x), (Z.ltb_spec x (width image)),
    (Z.leb_spec 0 y), (Z.ltb_spec y (height image)); try lia. done.
Qed.

Lemma length_DrawPixel image pixels x y :
  length (DrawPixel image pixels x y) = length pixels.
Proof. apply length_apply_stores. Qed.

Lemma alpha_offset_in_buffer image (pixels : list Z) s :
  in_canvas image s ->
  length pixels = Z.to_nat (PNG_IMAGE_SIZE image) ->
  (Z.to_nat ((XY.y s * width image + XY.x s) * 2 + 1) < length pixels)%nat.
Proof.
  intros [Hx Hy] ->. unfold PNG_IMAGE_SIZE. destruct s as [sx sy]; simpl in *.
  nia.
Qed.

(** [DrawPixel] makes its own pixel opaque. *)
Lemma DrawPixel_opaque_self image (pixels : list Z) s :
  in_canvas image s ->
  length pixels = Z.to_nat (PNG_IMAGE_SIZE image) ->
  opaque_at image (DrawPixel image pixels (XY.x s) (XY.y s)) s.
Proof.
  intros Hs Hlen. pose proof (alpha_offset_in_buffer image pixels s Hs Hlen) as Hlt.
  unfold opaque_at, DrawPixel. destruct s as [sx sy]; simpl in *.
  rewrite DrawPixel_stores_in by done.
  rewrite lookup_apply_stores. cbn [last_store fst snd].
  destruct Hs as [Hx Hy]; simpl in *.
  assert (0 <= sy * width image) by nia.
  destruct (Z.eqb_spec ((sy * width image + sx) * 2 + 1)
              (Z.of_nat (Z.to_nat ((sy * width image + sx) * 2 + 1))));
    [|lia].
  by rewrite bool_decide_eq_true_2.
Qed.

(** [DrawPixel] leaves every opaque pixel opaque. *)
Lemma DrawPixel_opaque_other image pixels x y p :
  in_canvas image p ->
  opaque_at image pixels p ->
  opaque_at image (DrawPixel image pixels x y) p.
Proof.
  unfold opaque_at, DrawPixel, DrawPixel_stores. intros [Hpx Hpy] Hp.
  assert (0 <= XY.y p * width image) by nia.
  destruct (_ && _); [|done].
  rewrite lookup_apply_stores. cbn [last_store fst snd].
  pose proof (lookup_lt_Some _ _ _ Hp) as Hlt.
  destruct (Z.eqb_spec ((y * width image + x) * 2 + 1)
              (Z.of_nat (Z.to_nat ((XY.y p * width image + XY.x p) * 2 + 1)))).
  - by rewrite bool_decide_eq_true_2.
  - destruct (Z.eqb_spec ((y * width image + x) * 2)
              (Z.of_nat (Z.to_nat ((XY.y p * width image + XY.x p) * 2 + 1))));
      [lia|done].
Qed.

(** A candidate with an opaque pixel of the canvas within [RADIUS] fails
    the proximity test. *)
(** Both loops are clipped at 0 and run to [width] and [height]
    inclusive. *)
Lemma IsEmptyRegion_reads_range beyond image pixels x y p :
  p ∈ IsEmptyRegion_reads beyond image pixels x y ->
  Z.max (x - RADIUS) 0 <= p.1 <= Z.min (x + RADIUS) (width image)
  /\ Z.max (y - RADIUS) 0 <= p.2 <= Z.min (y + RADIUS) (height image).
Proof.
  unfold IsEmptyRegion_reads, IsEmptyRegion_scan.
  intros [Hy Hx]%scan_rows_reads. rewrite !Max_spec, !Min_spec in *. lia.
Qed.

Lemma square_bound (d r : Z) : 0 <= r -> d * d <= r * r -> - r <= d <= r.
Proof. intros Hr Hd. nia. Qed.

Lemma IsEmptyRegion_far beyond image pixels s p :
  in_canvas image p ->
  opaque_at image pixels p ->
  IsEmptyRegion beyond image pixels (XY.x s) (XY.y s) = true ->
  RADIUS * RADIUS < dist2 p s.
Proof.
  intros [Hpx Hpy] Hp Hempty.
  destruct (Z.lt_ge_cases (RADIUS * RADIUS) (dist2 p s)) as [|Hnear]; [done|].
  exfalso. unfold dist2 in Hnear.
  assert (0 <= RADIUS) as HR by (unfold RADIUS; lia).
  assert (0 <= XY.y p * width image) as Hrow by nia.
  pose proof (Z.square_nonneg (XY.x p - XY.x s)) as Hsx.
  pose proof (Z.square_nonneg (XY.y p - XY.y s)) as Hsy.
  assert (- RADIUS <= XY.x p - XY.x s <= RADIUS) as Hdx
    by (apply square_bound; [done|lia]).
  assert (- RADIUS <= XY.y p - XY.y s <= RADIUS) as Hdy
    by (apply square_bound; [done|lia]).
  rewrite IsEmptyRegion_true in Hempty.
  specialize (Hempty (XY.x p) (XY.y p)).
  rewrite !Max_spec, !Min_spec in Hempty.
  unfold load, opaque_at in *.
  destruct (Z.ltb_spec ((XY.y p * width image + XY.x p) * 2 + 1) 0); [lia|].
  rewrite Hp in Hempty.
  assert (255 = 0); [|done]. apply Hempty; [lia|lia|].
  replace ((XY.x s - XY.x p) * (XY.x s - XY.x p))
    with ((XY.x p - XY.x s) * (XY.x p - XY.x s)) by ring.
  replace ((XY.y s - XY.y p) * (XY.y s - XY.y p))
    with ((XY.y p - XY.y s) * (XY.y p - XY.y s)) by ring.
  done.
Qed.

Section Isolation.
Variable beyond : nat -> Z -> Z.
Variable image : png_image.

Lemma placed_accept reg pixels i s :
  placed image reg pixels -> in_canvas image s ->
  accepts beyond image pixels i s = true ->
  placed image (reg ++ [s]) (DrawPixel image pixels (XY.x s) (XY.y s)).
Proof.
  intros (Hlen & Hin & Hop & Hiso) Hs Hacc.
  apply andb_prop in Hacc as [_ Hempty].
  split; [by rewrite length_DrawPixel|]. split; [|split].
  - apply Forall_app. split; [done|]. by apply Forall_singleton.
  - apply Forall_app. split.
    + rewrite Forall_forall in Hin, Hop |- *. intros p Hp.
      apply DrawPixel_opaque_other; auto.
    + apply Forall_singleton. by apply DrawPixel_opaque_self.
  - intros a b p q Hab Ha Hb.
    destruct (decide (b < length reg)%nat) as [Hlt|Hge].
    + rewrite lookup_app_l in Ha, Hb by lia. by apply (Hiso a b).
    + rewrite lookup_app_r in Hb by lia.
      apply list_lookup_singleton_Some in Hb as [Hb0 ->].
      rewrite lookup_app_l in Ha by lia.
      rewrite Forall_forall in Hin, Hop.
      apply list_elem_of_lookup_2 in Ha.
      apply (IsEmptyRegion_far (beyond i) image pixels); auto.
Qed.

Lemma place_append_placed i cands reg pixels :
  Forall (in_canvas image) cands ->
  placed image reg pixels ->
  placed image (place_append beyond image i cands reg pixels).1
         (place_append beyond image i cands reg pixels).2.
Proof.
  revert i reg pixels.
  induction cands as [|s cands IH]; intros i reg pixels Hc Hpl; [done|].
  apply Forall_cons in Hc as [Hs Hc]. cbn [place_append].
  destruct (accepts beyond image pixels i s) eqn:Hacc.
  - apply IH; [done|]. by apply (placed_accept reg pixels i).
  - by apply IH.
Qed.
End Isolation.

(** C2.  For a pixel buffer of the size of the image and a random source
    whose swap indices are in range, star placement ends, and any two
    stars of its registry, [p] accepted before [q], have squared distance
    above [RADIUS * RADIUS]; every accepted star is a canvas coordinate
    whose pixel the pass has made opaque. *)
Theorem accepted_stars_isolated RAND_MAX rand beyond image pixels :
  length pixels = Z.to_nat (PNG_IMAGE_SIZE image) ->
  draws_in_range RAND_MAX rand (length (init_stars image)) ->
  exists st,
    generate RAND_MAX rand beyond image pixels = Some st
    /\ (forall (a b : nat) p q, (a < b)%nat ->
          registry st !! a = Some p -> registry st !! b = Some q ->
          RADIUS * RADIUS < dist2 p q)
    /\ Forall (in_canvas image) (registry st)
    /\ Forall (opaque_at image (vs_pixels st)) (registry st).
Proof.
  intros Hlen Hdraw.
  destruct (shuffled_in_canvas RAND_MAX rand image Hdraw)
    as (stars & Heq & Hcanvas).
  unfold generate. rewrite Heq. simpl. eexists. split; [done|].
  destruct (visit_upto_invariant beyond image stars pixels (length stars)
              ltac:(lia)) as (_ & _ & _ & Happ).
  rewrite firstn_all in Happ.
  pose proof (place_append_placed beyond image 0 stars [] pixels Hcanvas) as Hpl.
  rewrite <- Happ in Hpl. simpl in Hpl.
  destruct Hpl as (_ & Hin & Hop & Hiso).
  - split; [done|]. split; [constructor|]. split; [constructor|].
    intros a b p q _ Ha. by rewrite lookup_nil in Ha.
  - done.
Qed.

Lemma accepted_stars_isolated_witness :
  exists st,
    generate sample_RAND_MAX sample_rand zeros_beyond image32 blank32 = Some st
    /\ (forall (a b : nat) p q, (a < b)%nat ->
          registry st !! a = Some p -> registry st !! b = Some q ->
          RADIUS * RADIUS < dist2 p q)
    /\ Forall (in_canvas image32) (registry st)
    /\ Forall (opaque_at image32 (vs_pixels st)) (registry st).
Proof.
  apply (accepted_stars_isolated sample_RAND_MAX sample_rand zeros_beyond
           image32 blank32).
  - vm_compute. reflexivity.
  - apply draws_in_rangeb_true. vm_compute. reflexivity.
Defined.

(* ================================================================= *)
(** * A canvas without an acceptable candidate *)

Lemma none_acceptedb_true beyond image pixels stars :
  none_acceptedb beyond image pixels stars = true ->
  none_accepted beyond image pixels stars.
Proof.
  unfold none_acceptedb, none_accepted. rewrite forallb_forall.
  intros H i s Hs.
  apply negb_true_iff, H, list_elem_of_In, (list_elem_of_lookup_2 _ i).
  by rewrite list_lookup_imap, Hs.
Qed.

Lemma visit_upto_none beyond image stars pixels k :
  none_accepted beyond image pixels stars ->
  visit_upto beyond image stars pixels k = VisitState stars 0 pixels.
Proof.
  intros Hnone. induction k as [|k IH]; [reflexivity|].
  rewrite visit_upto_S, IH. unfold visit. cbn [vs_stars vs_pixels].
  destruct (stars !! k) as [s|] eqn:Hs; [|done].
  by rewrite (Hnone k s Hs).
Qed.

(** C9.  When no slot of the shuffled array holds a candidate that passes
    both the hash test and the proximity test on the canvas, star
    placement ends with zero accepted stars, an empty registry, and the
    pixel buffer as it was given. *)
Theorem no_candidate_no_star RAND_MAX rand beyond image pixels :
  draws_in_range RAND_MAX rand (length (init_stars image)) ->
  (forall stars, shuffle RAND_MAX rand (init_stars image) = Some stars ->
     none_accepted beyond image pixels stars) ->
  exists st,
    generate RAND_MAX rand beyond image pixels = Some st
    /\ vs_star_count st = 0%nat
    /\ registry st = []
    /\ vs_pixels st = pixels.
Proof.
  intros Hdraw Hnone.
  destruct (shuffled_in_canvas RAND_MAX rand image Hdraw)
    as (stars & Heq & _).
  specialize (Hnone stars Heq).
  unfold generate. rewrite Heq. cbn [mbind option_bind].
  eexists. split; [done|].
  by rewrite visit_upto_none.
Qed.

Lemma no_candidate_no_star_witness :
  exists st,
    generate sample_RAND_MAX sample_rand zeros_beyond image10 opaque10 = Some st
    /\ vs_star_count st = 0%nat
    /\ registry st = []
    /\ vs_pixels st = opaque10.
Proof.
  apply (no_candidate_no_star sample_RAND_MAX sample_rand zeros_beyond
           image10 opaque10).
  - apply draws_in_rangeb_true. vm_compute. reflexivity.
  - intros stars Hstars. vm_compute in Hstars. injection Hstars as <-.
    apply none_acceptedb_true. vm_compute. reflexivity.
Defined.

Lemma compaction_safe_witness :
  (vs_star_count (visit_upto zeros_beyond image10 (init_stars image10)
                    blank10 100) <= 100)%nat
  /\ drop 100 (vs_stars (visit_upto zeros_beyond image10 (init_stars image10)
                           blank10 100))
     = drop 100 (init_stars image10)
  /\ (registry (visit_upto zeros_beyond image10 (init_stars image10) blank10 100),
      vs_pixels (visit_upto zeros_beyond image10 (init_stars image10) blank10 100))
     = place_append zeros_beyond image10 0 (take 100 (init_stars image10)) []
         blank10
  /\ registry (visit_upto zeros_beyond image10 (init_stars image10) blank10 100)
     `sublist_of` take 100 (init_stars image10).
Proof.
  apply (compaction_safe zeros_beyond image10 (init_stars image10) blank10 100).
  vm_compute. lia.
Defined.

(* ================================================================= *)
(** * What star placement depends on *)

Lemma scan_row_ext read1 read2 image x y iy ix n :
  (forall k, ix <= k < ix + Z.of_nat n ->
     read1 ((iy * width image + k) * 2 + 1) = read2 ((iy * width image + k) * 2 + 1)) ->
  scan_row read1 image x y iy ix n = scan_row read2 image x y iy ix n.
Proof.
  revert ix. induction n as [|n IH]; intros ix Hread; [done|].
  cbn [scan_row]. rewrite (Hread ix) by lia.
  rewrite (IH (ix + 1)) by (intros k Hk; apply Hread; lia). done.
Qed.

Lemma scan_rows_ext read1 read2 image x y iy n :
  (forall r k, iy <= r < iy + Z.of_nat n -> Max (x - RADIUS) 0 <= k ->
     read1 ((r * width image + k) * 2 + 1) = read2 ((r * width image + k) * 2 + 1)) ->
  scan_rows read1 image x y iy n = scan_rows read2 image x y iy n.
Proof.
  revert iy. induction n as [|n IH]; intros iy Hread; [done|].
  cbn [scan_rows].
  rewrite (scan_row_ext read1 read2) by (intros k Hk; apply Hread; lia).
  rewrite (IH (iy + 1)) by (intros r k Hr Hk; apply Hread; lia). done.
Qed.

Lemma load_same_alpha beyond pixels1 pixels2 q :
  same_alpha pixels1 pixels2 -> 0 <= q ->
  load beyond pixels1 (q * 2 + 1) = load beyond pixels2 (q * 2 + 1).
Proof.
  intros [_ Halpha] Hq. unfold load.
  replace (Z.to_nat (q * 2 + 1)) with (2 * Z.to_nat q + 1)%nat by lia.
  by rewrite Halpha.
Qed.

Lemma IsEmptyRegion_same_alpha beyond image pixels1 pixels2 x y :
  0 <= width image -> same_alpha pixels1 pixels2 ->
  IsEmptyRegion beyond image pixels1 x y = IsEmptyRegion beyond image pixels2 x y.
Proof.
  intros Hw Hsame. unfold IsEmptyRegion, IsEmptyRegion_scan.
  rewrite (scan_rows_ext (load beyond pixels1) (load beyond pixels2)); [done|].
  intros r k Hr Hk. rewrite Max_spec in Hr, Hk.
  apply load_same_alpha; [done|nia].
Qed.

Lemma apply_stores_same_alpha sts pixels1 pixels2 :
  same_alpha pixels1 pixels2 ->
  same_alpha (apply_stores sts pixels1) (apply_stores sts pixels2).
Proof.
  intros [Hlen Halpha]. split; [by rewrite !length_apply_stores|].
  intros n. rewrite !lookup_apply_stores, Hlen, Halpha. done.
Qed.

Lemma place_append_same_alpha beyond image i cands reg pixels1 pixels2 :
  0 <= width image -> same_alpha pixels1 pixels2 ->
  (place_append beyond image i cands reg pixels1).1
  = (place_append beyond image i cands reg pixels2).1.
Proof.
  intros Hw. revert i reg pixels1 pixels2.
  induction cands as [|s cands IH]; intros i reg pixels1 pixels2 Hsame; [done|].
  cbn [place_append]. unfold accepts.
  rewrite (IsEmptyRegion_same_alpha (beyond i) image pixels1 pixels2) by done.
  destruct (_ && _); apply IH; [|done].
  by apply apply_stores_same_alpha.
Qed.

(** Star placement reads the pixel buffer through its alpha bytes only:
    with one random source and one content of the memory past the
    buffer, two buffers with the same alpha bytes get the same registry. *)
Lemma generate_same_alpha RAND_MAX rand beyond image pixels1 pixels2 :
  0 <= width image -> same_alpha pixels1 pixels2 ->
  registry <$> generate RAND_MAX rand beyond image pixels1
  = registry <$> generate RAND_MAX rand beyond image pixels2.
Proof.
  intros Hw Hsame. unfold generate.
  destruct (shuffle RAND_MAX rand (init_stars image)) as [stars|]; [|done].
  cbn [mbind option_bind fmap option_fmap option_map]. f_equal.
  destruct (visit_upto_invariant beyond image stars pixels1 (length stars)
              ltac:(lia)) as (_ & _ & _ & H1).
  destruct (visit_upto_invariant beyond image stars pixels2 (length stars)
              ltac:(lia)) as (_ & _ & _ & H2).
  apply (f_equal fst) in H1, H2. cbn [fst] in H1, H2.
  rewrite H1, H2. by apply place_append_same_alpha.
Qed.


Lemma main_unfold RAND_MAX rand beyond image pixels frame :
  10 <= width image -> 10 <= height image ->
  main RAND_MAX rand beyond image pixels frame
  = (st ← generate RAND_MAX rand beyond image pixels;
     Some (Written (render image (registry st) frame (vs_pixels st)))).
Proof.
  intros Hw Hh. unfold main.
  destruct (width image <? 10) eqn:Hw'; [lia|].
  destruct (height image <? 10) eqn:Hh'; [lia|]. done.
Qed.

(** The whole run stores only to canvas pixels when it renders. *)
Lemma main_render_in_canvas RAND_MAX rand beyond image pixels frame :
  10 <= width image -> 10 <= height image ->
  length pixels = Z.to_nat (PNG_IMAGE_SIZE image) ->
  draws_in_range RAND_MAX rand (length (init_stars image)) ->
  exists st,
    generate RAND_MAX rand beyond image pixels = Some st
    /\ main RAND_MAX rand beyond image pixels frame
       = Some (Written (apply_stores (render_stores image (registry st) frame)
                          (vs_pixels st)))
    /\ Forall (store_in_canvas image) (render_stores image (registry st) frame).
Proof.
  intros Hw Hh Hlen Hdraw.
  destruct (shuffled_in_canvas RAND_MAX rand image Hdraw) as (stars & Heq & Hcanvas).
  rewrite main_unfold by done. unfold generate. rewrite Heq. cbn [mbind option_bind].
  eexists. split; [done|]. split; [by rewrite render_apply_stores|].
  destruct (visit_upto_invariant beyond image stars pixels (length stars)
              ltac:(lia)) as (_ & _ & _ & Happ).
  rewrite firstn_all in Happ.
  destruct (place_append_sublist beyond image 0 stars [] pixels)
    as (sel & Hsel & Hsub).
  rewrite <- Happ in Hsel. cbn [fst app] in Hsel.
  apply Forall_forall. intros st Hst. unfold render_stores in Hst.
  apply list_elem_of_bind in Hst as (s & Hst & Hs).
  rewrite Hsel in Hs.
  assert (in_canvas image s) as Hin.
  { rewrite Forall_forall in Hcanvas. apply Hcanvas.
    by apply (elem_of_sublist sel stars). }
  pose proof (render_star_stores_in_canvas image frame s Hin) as Hall.
  rewrite Forall_forall in Hall. by apply Hall.
Qed.

(* ================================================================= *)
(** * Where the code departs from the specification *)

(** C1 (the code departs from it).  Both candidates below pass
    [IsStarLocation], so the candidate loop does call [IsEmptyRegion] for
    them.  On the transparent 10x10 canvas the call for the candidate
    (6,7) inspects the coordinates (10,0) and (5,10), which are not in the
    canvas: both loops run to [width] and [height] inclusive.  The bytes
    loaded for row 10 lie past the end of the buffer, and the result
    follows them.  The byte loaded for column 10 of a row is the alpha
    byte of column 0 of the next row: on the canvas whose only opaque
    pixel is (0,9), every pixel of the canvas within [RADIUS] of the
    candidate (8,0) is transparent ((0,9) is at squared distance 145),
    yet the call for (8,0) inspects (10,8), loads the alpha byte of (0,9)
    for it and rejects the candidate, and the run ends with no star. *)
Theorem IsEmptyRegion_reads_past_canvas :
  IsStarLocation 6 7 = true
  /\ (10, 0) ∈ IsEmptyRegion_reads (zeros_beyond 0) image10 blank10 6 7
  /\ (5, 10) ∈ IsEmptyRegion_reads (zeros_beyond 0) image10 blank10 6 7
  /\ ~ in_canvas image10 (XY.mk 10 0)
  /\ ~ in_canvas image10 (XY.mk 5 10)
  /\ PNG_IMAGE_SIZE image10 <= (10 * width image10 + 5) * 2 + 1
  /\ (forall i, accepts zeros_beyond image10 blank10 i (XY.mk 6 7) = true)
  /\ (forall i, accepts ones_beyond image10 blank10 i (XY.mk 6 7) = false)
  /\ IsStarLocation 8 0 = true
  /\ (forall q, in_canvas image10 q -> dist2 q (XY.mk 8 0) <= RADIUS * RADIUS ->
        alpha_at image10 spotted10 q = Some 0)
  /\ dist2 (XY.mk 0 9) (XY.mk 8 0) = 145
  /\ (10, 8) ∈ IsEmptyRegion_reads (zeros_beyond 0) image10 spotted10 8 0
  /\ ~ in_canvas image10 (XY.mk 10 8)
  /\ (8 * width image10 + 10) * 2 + 1 = pixel_offset image10 (XY.mk 0 9) + 1
  /\ IsEmptyRegion (zeros_beyond 0) image10 spotted10 8 0 = false
  /\ (forall i, accepts zeros_beyond image10 spotted10 i (XY.mk 8 0) = false)
  /\ registry <$> generate sample_RAND_MAX sample_rand zeros_beyond image10 spotted10
     = Some [].
Proof.
  split; [vm_compute; reflexivity|].
  split; [apply (list_elem_of_lookup_2 _ 10%nat); vm_compute; reflexivity|].
  split; [apply (list_elem_of_lookup_2 _ 115%nat); vm_compute; reflexivity|].
  split; [unfold in_canvas; simpl; lia|].
  split; [unfold in_canvas; simpl; lia|].
  split; [vm_compute; discriminate|].
  split; [intros i; vm_compute; reflexivity|].
  split; [intros i; vm_compute; reflexivity|].
  split; [vm_compute; reflexivity|].
  split.
  { intros [qx qy] [Hx Hy] Hd. unfold dist2, RADIUS in Hd.
    unfold alpha_at, pixel_offset. simpl in *.
    assert (Z.to_nat ((qy * 10 + qx) * 2 + 1) <> 181%nat) as Hne.
    { intros Heq. assert (qx = 0 /\ qy = 9) as [-> ->] by lia. lia. }
    unfold spotted10. rewrite list_lookup_insert_ne by done.
    apply lookup_replicate_2. lia. }
  split; [vm_compute; reflexivity|].
  split; [apply (list_elem_of_lookup_2 _ 98%nat); vm_compute; reflexivity|].
  split; [unfold in_canvas; simpl; lia|].
  split; [vm_compute; reflexivity|].
  split; [vm_compute; reflexivity|].
  split; [intros i; vm_compute; reflexivity|].
  vm_compute. reflexivity.
Qed.

(** C6 (the code departs from it).  Two runs of star placement on the
    same transparent 10x10 canvas, with the same random source, end with
    different registries when the memory past the end of the pixel
    buffer differs: the proximity test of the candidate (6,7) loads the
    alpha bytes of row 10. *)
Theorem generate_follows_memory_past_buffer :
  registry <$> generate sample_RAND_MAX sample_rand zeros_beyond image10 blank10
  = Some [XY.mk 6 7]
  /\ registry <$> generate sample_RAND_MAX sample_rand ones_beyond image10 blank10
     = Some []
  /\ (0, 10) ∈ IsEmptyRegion_reads (zeros_beyond 2) image10 blank10 6 7
  /\ PNG_IMAGE_SIZE image10 <= (10 * width image10 + 0) * 2 + 1.
Proof.
  split; [vm_compute; reflexivity|].
  split; [vm_compute; reflexivity|].
  split; [apply (list_elem_of_lookup_2 _ 110%nat); vm_compute; reflexivity|].
  vm_compute. discriminate.
Qed.

(* ================================================================= *)
(** * More on the proximity test and on [DrawPixel] *)

(** X1.  [IsEmptyRegion] returns 1 exactly when every coordinate of the
    square [Max(x-R,0) .. Min(x+R,width)] x [Max(y-R,0) .. Min(y+R,height)]
    at squared distance at most [R*R] from [(x,y)] has a zero byte at
    offset [(iy*width+ix)*2+1]. *)
Theorem IsEmptyRegion_iff_clear beyond image pixels x y :
  IsEmptyRegion beyond image pixels x y = true <->
  forall ix iy,
    Max (x - RADIUS) 0 <= ix <= Min (x + RADIUS) (width image) ->
    Max (y - RADIUS) 0 <= iy <= Min (y + RADIUS) (height image) ->
    (x - ix) * (x - ix) + (y - iy) * (y - iy) <= RADIUS * RADIUS ->
    load beyond pixels ((iy * width image + ix) * 2 + 1) = 0.
Proof. apply IsEmptyRegion_true. Qed.

Lemma scan_row_within read image x y iy ix n p :
  p ∈ (scan_row read image x y iy ix n).1 ->
  (x - p.1) * (x - p.1) + (y - p.2) * (y - p.2) <= RADIUS * RADIUS.
Proof.
  revert ix. induction n as [|n IH]; intros ix; cbn [scan_row].
  - intros []%elem_of_nil.
  - destruct (Z.gtb_spec ((x - ix) * (x - ix) + (y - iy) * (y - iy))
                (RADIUS * RADIUS)) as [Hfar|Hnear]; [apply IH|].
    destruct (_ =? _); cbn [fst].
    + intros [->|Hp]%elem_of_cons; [done|by apply (IH (ix + 1))].
    + intros ->%list_elem_of_singleton. done.
Qed.

Lemma scan_rows_within read image x y iy n p :
  p ∈ (scan_rows read image x y iy n).1 ->
  (x - p.1) * (x - p.1) + (y - p.2) * (y - p.2) <= RADIUS * RADIUS.
Proof.
  revert iy. induction n as [|n IH]; intros iy; cbn [scan_rows].
  - intros []%elem_of_nil.
  - destruct (scan_row _ _ _ _ _ _ _).2; cbn [fst].
    + intros [Hp|Hp]%elem_of_app;
        [by apply scan_row_within in Hp|by apply (IH (iy + 1))].
    + apply scan_row_within.
Qed.

Lemma scan_row_stops read image x y iy ix n :
  stops_at_first_opaque read image (scan_row read image x y iy ix n).
Proof.
  unfold stops_at_first_opaque. revert ix.
  induction n as [|n IH]; intros ix; cbn [scan_row].
  - cbn [fst snd]. intros p []%elem_of_nil.
  - destruct (_ >? _); [apply IH|].
    destruct (Z.eqb_spec (read ((iy * width image + ix) * 2 + 1)) 0) as [Hz|Hnz];
      cbn [fst snd].
    + specialize (IH (ix + 1)).
      destruct (scan_row read image x y iy (ix + 1) n).2.
      * intros p [->|Hp]%elem_of_cons; [done|by apply IH].
      * destruct IH as (front & p & -> & Hp & Hfront).
        exists ((ix, iy) :: front), p. split; [done|]. split; [done|].
        intros p' [->|Hp']%elem_of_cons; [done|by apply Hfront].
    + exists [], (ix, iy). split; [done|]. split; [done|].
      intros p' []%elem_of_nil.
Qed.

Lemma scan_rows_stops read image x y iy n :
  stops_at_first_opaque read image (scan_rows read image x y iy n).
Proof.
  unfold stops_at_first_opaque. revert iy.
  induction n as [|n IH]; intros iy; cbn [scan_rows].
  - cbn [fst snd]. intros p []%elem_of_nil.
  - pose proof (scan_row_stops read image x y iy (Max (x - RADIUS) 0)
                  (Z.to_nat (Min (x + RADIUS) (width image)
                             - Max (x - RADIUS) 0 + 1))) as Hrow.
    unfold stops_at_first_opaque in Hrow.
    destruct (scan_row _ _ _ _ _ _ _).2 eqn:Erow; [|by rewrite Erow].
    cbn [fst snd]. specialize (IH (iy + 1)).
    destruct (scan_rows read image x y (iy + 1) n).2.
    + intros p [Hp|Hp]%elem_of_app; [by apply Hrow|by apply IH].
    + destruct IH as (front & p & -> & Hp & Hfront).
      eexists (_ ++ front), p. rewrite app_assoc. split; [done|].
      split; [done|].
      intros p' [Hp'|Hp']%elem_of_app; [by apply Hrow|by apply Hfront].
Qed.

(** X2.  What one call of [IsEmptyRegion] inspects.  No inspected
    coordinate is negative, none lies past column [width] or row [height],
    and each is at squared distance at most [R*R] from the centre.  The
    scan stops at the first byte that is not zero: when the result is 1
    every inspected byte is zero, when it is 0 the last inspected byte is
    the only one that is not. *)
Theorem IsEmptyRegion_scan_trace beyond image pixels x y :
  (forall p, p ∈ IsEmptyRegion_reads beyond image pixels x y ->
     0 <= p.1 <= width image /\ 0 <= p.2 <= height image
     /\ (x - p.1) * (x - p.1) + (y - p.2) * (y - p.2) <= RADIUS * RADIUS)
  /\ stops_at_first_opaque (load beyond pixels) image
       (IsEmptyRegion_reads beyond image pixels x y,
        IsEmptyRegion beyond image pixels x y).
Proof.
  split.
  - intros p Hp. pose proof (IsEmptyRegion_reads_range _ _ _ _ _ _ Hp) as Hr.
    unfold IsEmptyRegion_reads, IsEmptyRegion_scan in Hp.
    apply scan_rows_within in Hp. lia.
  - unfold IsEmptyRegion_reads, IsEmptyRegion, IsEmptyRegion_scan.
    rewrite <- surjective_pairing. apply scan_rows_stops.
Qed.

Lemma DrawPixel_outside image pixels x y :
  ~ in_canvas image (XY.mk x y) -> DrawPixel image pixels x y = pixels.
Proof.
  unfold in_canvas, DrawPixel, DrawPixel_stores; simpl. intros Hout.
  destruct (Z.leb_spec 0 x), (Z.ltb_spec x (width image)),
    (Z.leb_spec 0 y), (Z.ltb_spec y (height image)); try done. lia.
Qed.

Lemma DrawPixel_lookup_other image pixels x y (n : nat) :
  Z.of_nat n <> (y * width image + x) * 2 ->
  Z.of_nat n <> (y * width image + x) * 2 + 1 ->
  DrawPixel image pixels x y !! n = pixels !! n.
Proof.
  intros Hg Ha. unfold DrawPixel, DrawPixel_stores.
  destruct (_ && _); [|done].
  rewrite lookup_apply_stores. cbn [last_store fst snd].
  destruct (Z.eqb_spec ((y * width image + x) * 2 + 1) (Z.of_nat n)); [lia|].
  destruct (Z.eqb_spec ((y * width image + x) * 2) (Z.of_nat n)); [lia|done].
Qed.

Lemma DrawPixel_lookup_gray image (pixels : list Z) s :
  in_canvas image s ->
  length pixels = Z.to_nat (PNG_IMAGE_SIZE image) ->
  DrawPixel image pixels (XY.x s) (XY.y s)
    !! Z.to_nat ((XY.y s * width image + XY.x s) * 2) = Some 0.
Proof.
  intros Hs Hlen. pose proof (alpha_offset_in_buffer image pixels s Hs Hlen) as Hlt.
  unfold DrawPixel. destruct s as [sx sy]; simpl in *.
  rewrite DrawPixel_stores_in by done.
  rewrite lookup_apply_stores. cbn [last_store fst snd].
  destruct Hs as [Hx Hy]; simpl in *.
  assert (0 <= sy * width image) by nia.
  destruct (Z.eqb_spec ((sy * width image + sx) * 2 + 1)
              (Z.of_nat (Z.to_nat ((sy * width image + sx) * 2)))); [lia|].
  destruct (Z.eqb_spec ((sy * width image + sx) * 2)
              (Z.of_nat (Z.to_nat ((sy * width image + sx) * 2)))); [|lia].
  rewrite bool_decide_eq_true_2 by lia. done.
Qed.

Lemma DrawPixel_pixel_at image (pixels : list Z) s :
  in_canvas image s ->
  length pixels = Z.to_nat (PNG_IMAGE_SIZE image) ->
  pixel_at image (DrawPixel image pixels (XY.x s) (XY.y s)) s = Some (0, 255).
Proof.
  intros Hs Hlen. unfold pixel_at.
  rewrite DrawPixel_lookup_gray by done.
  pose proof (DrawPixel_opaque_self image pixels s Hs Hlen) as Ha.
  unfold opaque_at in Ha.
  assert (0 <= XY.y s * width image) by (destruct Hs; nia).
  replace (S (Z.to_nat ((XY.y s * width image + XY.x s) * 2)))
    with (Z.to_nat ((XY.y s * width image + XY.x s) * 2 + 1))
    by (destruct Hs; lia).
  rewrite Ha. done.
Qed.

(** X4.  [DrawPixel] on a buffer of the size of the image keeps the
    length; for a coordinate outside the canvas it changes nothing; for a
    coordinate of the canvas it leaves gray 0 and alpha 0xff at that pixel
    and every other byte as it was. *)
Theorem DrawPixel_effect image (pixels : list Z) x y :
  length pixels = Z.to_nat (PNG_IMAGE_SIZE image) ->
  length (DrawPixel image pixels x y) = length pixels
  /\ (~ in_canvas image (XY.mk x y) -> DrawPixel image pixels x y = pixels)
  /\ (in_canvas image (XY.mk x y) ->
        pixel_at image (DrawPixel image pixels x y) (XY.mk x y) = Some (0, 255)
        /\ forall n : nat,
             Z.of_nat n <> pixel_offset image (XY.mk x y) ->
             Z.of_nat n <> pixel_offset image (XY.mk x y) + 1 ->
             DrawPixel image pixels x y !! n = pixels !! n).
Proof.
  intros Hlen. split; [apply length_DrawPixel|]. split.
  - apply DrawPixel_outside.
  - intros Hin. split.
    + apply (DrawPixel_pixel_at image pixels (XY.mk x y)); done.
    + intros n Hg Ha. by apply DrawPixel_lookup_other.
Qed.

Lemma DrawPixel_effect_witness :
  length (DrawPixel image10 blank10 9 9) = length blank10
  /\ (~ in_canvas image10 (XY.mk 9 9) -> DrawPixel image10 blank10 9 9 = blank10)
  /\ (in_canvas image10 (XY.mk 9 9) ->
        pixel_at image10 (DrawPixel image10 blank10 9 9) (XY.mk 9 9)
        = Some (0, 255)
        /\ forall n : nat,
             Z.of_nat n <> pixel_offset image10 (XY.mk 9 9) ->
             Z.of_nat n <> pixel_offset image10 (XY.mk 9 9) + 1 ->
             DrawPixel image10 blank10 9 9 !! n = blank10 !! n).
Proof.
  apply (DrawPixel_effect image10 blank10 9 9). vm_compute. reflexivity.
Defined.

(** X3.  Away from the right and bottom edges the proximity test is exact.
    For a centre with [x + RADIUS < width] and [y + RADIUS < height] on a
    buffer of the size of the image, the result does not depend on memory
    past the buffer: it is 1 exactly when every pixel of the canvas at
    squared distance at most [R*R] from the centre has alpha 0. *)
Theorem IsEmptyRegion_interior_exact beyond image (pixels : list Z) x y :
  x + RADIUS < width image -> y + RADIUS < height image ->
  length pixels = Z.to_nat (PNG_IMAGE_SIZE image) ->
  IsEmptyRegion beyond image pixels x y = true <->
  forall q, in_canvas image q -> dist2 q (XY.mk x y) <= RADIUS * RADIUS ->
    alpha_at image pixels q = Some 0.
Proof.
  intros Hx Hy Hlen. rewrite IsEmptyRegion_true.
  assert (0 <= RADIUS) as HR by (unfold RADIUS; lia).
  unfold alpha_at, pixel_offset. split.
  - intros Hclear q Hq Hnear.
    pose proof (alpha_offset_in_buffer image pixels q Hq Hlen) as Hlt.
    destruct Hq as [Hqx Hqy]. unfold dist2 in Hnear. cbn [XY.x XY.y] in Hnear.
    pose proof (Z.square_nonneg (XY.x q - x)) as Hsx.
    pose proof (Z.square_nonneg (XY.y q - y)) as Hsy.
    assert (- RADIUS <= XY.x q - x <= RADIUS) as Hdx
      by (apply square_bound; [done|lia]).
    assert (- RADIUS <= XY.y q - y <= RADIUS) as Hdy
      by (apply square_bound; [done|lia]).
    specialize (Hclear (XY.x q) (XY.y q)).
    rewrite !Max_spec, !Min_spec in Hclear.
    assert (0 <= XY.y q * width image) by nia.
    unfold load in Hclear.
    destruct (Z.ltb_spec ((XY.y q * width image + XY.x q) * 2 + 1) 0); [lia|].
    destruct (lookup_lt_is_Some_2 pixels _ Hlt) as [a Ha].
    rewrite Ha in Hclear |- *. f_equal. apply Hclear; [lia|lia|].
    replace ((x - XY.x q) * (x - XY.x q))
      with ((XY.x q - x) * (XY.x q - x)) by ring.
    replace ((y - XY.y q) * (y - XY.y q))
      with ((XY.y q - y) * (XY.y q - y)) by ring.
    done.
  - intros Hclear ix iy Hix Hiy Hnear.
    rewrite !Max_spec, !Min_spec in Hix, Hiy.
    specialize (Hclear (XY.mk ix iy)). cbn [XY.x XY.y] in Hclear.
    assert (0 <= iy * width image) by nia.
    unfold load.
    destruct (Z.ltb_spec ((iy * width image + ix) * 2 + 1) 0); [lia|].
    rewrite Hclear; [done|split; simpl; lia|].
    unfold dist2. cbn [XY.x XY.y].
    replace ((ix - x) * (ix - x)) with ((x - ix) * (x - ix)) by ring.
    replace ((iy - y) * (iy - y)) with ((y - iy) * (y - iy)) by ring.
    done.
Qed.

Lemma IsEmptyRegion_interior_exact_witness :
  IsEmptyRegion (ones_beyond 0) image32 blank32 10 10 = true <->
  forall q, in_canvas image32 q -> dist2 q (XY.mk 10 10) <= RADIUS * RADIUS ->
    alpha_at image32 blank32 q = Some 0.
Proof.
  apply (IsEmptyRegion_interior_exact (ones_beyond 0) image32 blank32 10 10).
  - vm_compute. reflexivity.
  - vm_compute. reflexivity.
  - vm_compute. reflexivity.
Defined.

(* ================================================================= *)
(** * More on star placement *)

Lemma dist2_sym p q : dist2 p q = dist2 q p.
Proof. unfold dist2. ring. Qed.

Lemma pixel_offset_inj image p q c c' :
  in_canvas image p -> in_canvas image q ->
  (c = 0 \/ c = 1) -> (c' = 0 \/ c' = 1) ->
  pixel_offset image p + c = pixel_offset image q + c' ->
  p = q /\ c = c'.
Proof.
  unfold pixel_offset. intros [Hpx Hpy] [Hqx Hqy] Hc Hc' Heq.
  assert (XY.y p * width image + XY.x p = XY.y q * width image + XY.x q) as Hrow
    by lia.
  assert (XY.y p = XY.y q) as Hy by nia.
  assert (XY.x p = XY.x q) as Hx by nia.
  split; [|lia]. destruct p, q; simpl in *; congruence.
Qed.

Lemma pixel_offset_nonneg image q : in_canvas image q -> 0 <= pixel_offset image q.
Proof. unfold pixel_offset. intros [Hx Hy]. nia. Qed.

(** A generic invariant of the append-only pass. *)
Lemma place_append_invariant beyond image (P : list XY -> list Z -> Prop) cands :
  (forall i s reg px, s ∈ cands -> P reg px ->
     accepts beyond image px i s = true ->
     P (reg ++ [s]) (DrawPixel image px (XY.x s) (XY.y s))) ->
  forall i reg px, P reg px ->
    P (place_append beyond image i cands reg px).1
      (place_append beyond image i cands reg px).2.
Proof.
  induction cands as [|s cands IH]; intros Hstep i reg px HP; [done|].
  cbn [place_append].
  assert (forall i s' reg px, s' ∈ cands -> P reg px ->
            accepts beyond image px i s' = true ->
            P (reg ++ [s']) (DrawPixel image px (XY.x s') (XY.y s'))) as Hstep'.
  { intros i' s' reg' px' Hs'. apply Hstep. by right. }
  destruct (accepts beyond image px i s) eqn:Hacc.
  - apply IH; [done|]. apply (Hstep i); [left|done|done].
  - by apply IH.
Qed.

(** Star placement, when the swap indices are in range, is the
    append-only pass over the shuffled array. *)
Lemma generate_as_append RAND_MAX rand beyond image pixels :
  draws_in_range RAND_MAX rand (length (init_stars image)) ->
  exists stars st,
    shuffle RAND_MAX rand (init_stars image) = Some stars
    /\ stars ≡ₚ init_stars image
    /\ generate RAND_MAX rand beyond image pixels = Some st
    /\ registry st = (place_append beyond image 0 stars [] pixels).1
    /\ vs_pixels st = (place_append beyond image 0 stars [] pixels).2
    /\ (vs_star_count st <= length stars)%nat
    /\ length (vs_stars st) = length stars.
Proof.
  intros Hdraw.
  destruct (shuffle_Permutation RAND_MAX rand _ Hdraw) as (stars & Heq & Hperm).
  exists stars. eexists. split; [done|]. split; [done|].
  unfold generate. rewrite Heq. cbn [mbind option_bind]. split; [done|].
  destruct (visit_upto_invariant beyond image stars pixels (length stars)
              ltac:(lia)) as (Hcount & Hlen & _ & Happ).
  rewrite firstn_all in Happ. rewrite <- Happ. done.
Qed.

(** X5.  The registry of accepted stars has no coordinate twice; each of
    its stars is a coordinate of the canvas that passes the hash test; and
    [star_count] is its length, at most the number of pixels. *)
Theorem registry_distinct_eligible RAND_MAX rand beyond image pixels :
  draws_in_range RAND_MAX rand (length (init_stars image)) ->
  exists st,
    generate RAND_MAX rand beyond image pixels = Some st
    /\ NoDup (registry st)
    /\ (forall s, s ∈ registry st ->
          in_canvas image s /\ IsStarLocation (XY.x s) (XY.y s) = true)
    /\ length (registry st) = vs_star_count st
    /\ (vs_star_count st
        <= Z.to_nat (height image) * Z.to_nat (width image))%nat.
Proof.
  intros Hdraw.
  destruct (generate_as_append RAND_MAX rand beyond image pixels Hdraw)
    as (stars & st & _ & Hperm & Hgen & Hreg & _ & Hcount & Hlen).
  exists st. split; [done|].
  destruct (place_append_sublist beyond image 0 stars [] pixels)
    as (sel & Hsel & Hsub).
  rewrite <- Hreg in Hsel. cbn [app] in Hsel.
  assert (NoDup stars) as Hnodup by (rewrite Hperm; apply NoDup_init_stars).
  split; [rewrite Hsel; by apply (sublist_NoDup sel stars)|].
  split; [|split].
  - intros s Hs. split.
    + apply elem_of_init_stars. rewrite <- Hperm.
      apply (elem_of_sublist sel stars); [by rewrite <- Hsel|done].
    + revert s Hs. apply Forall_forall. rewrite Hreg.
      apply (place_append_invariant beyond image
               (fun reg _ => Forall (fun s => IsStarLocation (XY.x s) (XY.y s) = true)
                               reg)); [|constructor].
      intros i s reg px _ Hreg' Hacc. apply Forall_app. split; [done|].
      apply Forall_singleton. unfold accepts in Hacc.
      by apply andb_prop in Hacc as [? _].
  - unfold registry. rewrite length_take. lia.
  - rewrite <- length_init_stars, <- Hperm. done.
Qed.

Lemma registry_distinct_eligible_witness :
  exists st,
    generate sample_RAND_MAX sample_rand zeros_beyond image32 blank32 = Some st
    /\ NoDup (registry st)
    /\ (forall s, s ∈ registry st ->
          in_canvas image32 s /\ IsStarLocation (XY.x s) (XY.y s) = true)
    /\ length (registry st) = vs_star_count st
    /\ (vs_star_count st <= 1024)%nat.
Proof.
  apply (registry_distinct_eligible sample_RAND_MAX sample_rand zeros_beyond
           image32 blank32).
  apply draws_in_rangeb_true. vm_compute. reflexivity.
Defined.

Lemma draw_all_snoc image stars s pixels :
  draw_all image (stars ++ [s]) pixels
  = DrawPixel image (draw_all image stars pixels) (XY.x s) (XY.y s).
Proof. unfold draw_all. by rewrite fold_left_app. Qed.

Lemma length_draw_all image stars pixels :
  length (draw_all image stars pixels) = length pixels.
Proof.
  induction stars as [|s stars IH] using rev_ind; [done|].
  by rewrite draw_all_snoc, length_DrawPixel.
Qed.

Lemma draw_all_lookup_other image stars pixels (n : nat) :
  (forall s, s ∈ stars ->
     Z.of_nat n <> pixel_offset image s /\ Z.of_nat n <> pixel_offset image s + 1) ->
  draw_all image stars pixels !! n = pixels !! n.
Proof.
  induction stars as [|s stars IH] using rev_ind; intros Hn; [done|].
  rewrite draw_all_snoc.
  destruct (Hn s) as [Hg Ha]; [apply elem_of_app; right; left|].
  rewrite DrawPixel_lookup_other by done.
  apply IH. intros t Ht. apply Hn, elem_of_app. by left.
Qed.

(** [DrawPixel] keeps a pixel that is black and opaque as it is. *)
Lemma DrawPixel_keeps_drawn image pixels x y s :
  pixel_at image pixels s = Some (0, 255) ->
  0 <= pixel_offset image s ->
  pixel_at image (DrawPixel image pixels x y) s = Some (0, 255).
Proof.
  unfold pixel_at, pixel_offset. intros Hs Hoff.
  set (o := (XY.y s * width image + XY.x s) * 2) in *.
  destruct (pixels !! Z.to_nat o) as [g|] eqn:Hg; [|done].
  destruct (pixels !! S (Z.to_nat o)) as [a|] eqn:Ha; [|done].
  cbn [mbind option_bind] in Hs. injection Hs as -> ->.
  pose proof (lookup_lt_Some _ _ _ Hg) as Hltg.
  pose proof (lookup_lt_Some _ _ _ Ha) as Hlta.
  unfold DrawPixel, DrawPixel_stores. destruct (_ && _).
  - rewrite !lookup_apply_stores. cbn [last_store fst snd].
    destruct (Z.eqb_spec ((y * width image + x) * 2 + 1) (Z.of_nat (Z.to_nat o)));
      [lia|].
    destruct (Z.eqb_spec ((y * width image + x) * 2) (Z.of_nat (Z.to_nat o))).
    + rewrite bool_decide_eq_true_2 by lia. cbn [mbind option_bind].
      destruct (Z.eqb_spec ((y * width image + x) * 2 + 1)
                  (Z.of_nat (S (Z.to_nat o)))); [|lia].
      rewrite bool_decide_eq_true_2 by lia. done.
    + rewrite Hg. cbn [mbind option_bind].
      destruct (Z.eqb_spec ((y * width image + x) * 2 + 1)
                  (Z.of_nat (S (Z.to_nat o)))); [lia|].
      destruct (Z.eqb_spec ((y * width image + x) * 2)
                  (Z.of_nat (S (Z.to_nat o)))); [lia|].
      rewrite Ha. done.
  - cbn [apply_stores fold_left]. rewrite Hg, Ha. done.
Qed.

Lemma draw_all_pixel_at image stars (pixels : list Z) s :
  length pixels = Z.to_nat (PNG_IMAGE_SIZE image) ->
  in_canvas image s -> s ∈ stars ->
  pixel_at image (draw_all image stars pixels) s = Some (0, 255).
Proof.
  intros Hlen Hs.
  induction stars as [|t stars IH] using rev_ind; [intros []%elem_of_nil|].
  rewrite draw_all_snoc. intros [Hin|Hin]%elem_of_app.
  - apply DrawPixel_keeps_drawn; [by apply IH|by apply pixel_offset_nonneg].
  - apply list_elem_of_singleton in Hin as ->.
    apply DrawPixel_pixel_at; [done|by rewrite length_draw_all].
Qed.

(** X6.  What star placement does to the pixel buffer: it is the given
    buffer with [DrawPixel] applied to each accepted star in order.  The
    length is kept, every accepted star ends black and opaque, and every
    byte that is not the gray or alpha byte of an accepted star is as it
    was given. *)
Theorem generate_draws_registry RAND_MAX rand beyond image (pixels : list Z) :
  length pixels = Z.to_nat (PNG_IMAGE_SIZE image) ->
  draws_in_range RAND_MAX rand (length (init_stars image)) ->
  exists st,
    generate RAND_MAX rand beyond image pixels = Some st
    /\ vs_pixels st = draw_all image (registry st) pixels
    /\ length (vs_pixels st) = length pixels
    /\ (forall s, s ∈ registry st ->
          pixel_at image (vs_pixels st) s = Some (0, 255))
    /\ (forall n : nat,
          (forall s, s ∈ registry st ->
             Z.of_nat n <> pixel_offset image s
             /\ Z.of_nat n <> pixel_offset image s + 1) ->
          vs_pixels st !! n = pixels !! n).
Proof.
  intros Hlen Hdraw.
  destruct (generate_as_append RAND_MAX rand beyond image pixels Hdraw)
    as (stars & st & _ & Hperm & Hgen & Hreg & Hpix & _).
  exists st. split; [done|].
  assert (vs_pixels st = draw_all image (registry st) pixels) as Hdrawn.
  { rewrite Hreg, Hpix.
    apply (place_append_invariant beyond image
             (fun reg px => px = draw_all image reg pixels)); [|done].
    intros i s reg px _ -> _. by rewrite draw_all_snoc. }
  split; [done|]. rewrite Hdrawn. split; [apply length_draw_all|]. split.
  - intros s Hs. apply draw_all_pixel_at; [done| |done].
    apply elem_of_init_stars. rewrite <- Hperm.
    destruct (place_append_sublist beyond image 0 stars [] pixels)
      as (sel & Hsel & Hsub).
    rewrite <- Hreg in Hsel. cbn [app] in Hsel.
    apply (elem_of_sublist sel stars); [by rewrite <- Hsel|done].
  - intros n Hn. by apply draw_all_lookup_other.
Qed.

Lemma generate_draws_registry_witness :
  exists st,
    generate sample_RAND_MAX sample_rand zeros_beyond image32 blank32 = Some st
    /\ vs_pixels st = draw_all image32 (registry st) blank32
    /\ length (vs_pixels st) = length blank32
    /\ (forall s, s ∈ registry st ->
          pixel_at image32 (vs_pixels st) s = Some (0, 255))
    /\ (forall n : nat,
          (forall s, s ∈ registry st ->
             Z.of_nat n <> pixel_offset image32 s
             /\ Z.of_nat n <> pixel_offset image32 s + 1) ->
          vs_pixels st !! n = blank32 !! n).
Proof.
  apply (generate_draws_registry sample_RAND_MAX sample_rand zeros_beyond
           image32 blank32).
  - vm_compute. reflexivity.
  - apply draws_in_rangeb_true. vm_compute. reflexivity.
Defined.

(** A test that passes found every canvas pixel within [RADIUS] of the
    candidate transparent. *)
Lemma IsEmptyRegion_clear_near beyond image (pixels : list Z) s q :
  in_canvas image q ->
  length pixels = Z.to_nat (PNG_IMAGE_SIZE image) ->
  IsEmptyRegion beyond image pixels (XY.x s) (XY.y s) = true ->
  dist2 q s <= RADIUS * RADIUS ->
  alpha_at image pixels q = Some 0.
Proof.
  intros Hq Hlen Hempty Hnear.
  pose proof (alpha_offset_in_buffer image pixels q Hq Hlen) as Hlt.
  unfold alpha_at, pixel_offset.
  destruct (lookup_lt_is_Some_2 pixels _ Hlt) as [a Ha]. rewrite Ha.
  destruct (decide (a = 0)) as [->|Hnz]; [done|]. exfalso.
  assert (0 <= RADIUS) as HR by (unfold RADIUS; lia).
  destruct Hq as [Hqx Hqy]. unfold dist2 in Hnear.
  pose proof (Z.square_nonneg (XY.x q - XY.x s)) as Hsx.
  pose proof (Z.square_nonneg (XY.y q - XY.y s)) as Hsy.
  assert (- RADIUS <= XY.x q - XY.x s <= RADIUS) as Hdx
    by (apply square_bound; [done|lia]).
  assert (- RADIUS <= XY.y q - XY.y s <= RADIUS) as Hdy
    by (apply square_bound; [done|lia]).
  assert (0 <= XY.y q * width image) by nia.
  rewrite IsEmptyRegion_true in Hempty.
  specialize (Hempty (XY.x q) (XY.y q)).
  rewrite !Max_spec, !Min_spec in Hempty. unfold load in Hempty.
  destruct (Z.ltb_spec ((XY.y q * width image + XY.x q) * 2 + 1) 0); [lia|].
  rewrite Ha in Hempty. apply Hnz, Hempty; [lia|lia|].
  replace ((XY.x s - XY.x q) * (XY.x s - XY.x q))
    with ((XY.x q - XY.x s) * (XY.x q - XY.x s)) by ring.
  replace ((XY.y s - XY.y q) * (XY.y s - XY.y q))
    with ((XY.y q - XY.y s) * (XY.y q - XY.y s)) by ring.
  done.
Qed.

Lemma DrawPixel_alpha_other image pixels x y q :
  in_canvas image (XY.mk x y) -> in_canvas image q -> q <> XY.mk x y ->
  alpha_at image (DrawPixel image pixels x y) q = alpha_at image pixels q.
Proof.
  intros Hs Hq Hne. unfold alpha_at.
  pose proof (pixel_offset_nonneg image q Hq) as Hoff.
  apply DrawPixel_lookup_other.
  - intros Heq.
    destruct (pixel_offset_inj image q (XY.mk x y) 1 0 Hq Hs) as [_ Habs];
      [by right|by left| |done].
    unfold pixel_offset in *. cbn [XY.x XY.y]. lia.
  - intros Heq.
    destruct (pixel_offset_inj image q (XY.mk x y) 1 1 Hq Hs) as [Habs _];
      [by right|by right| |done].
    unfold pixel_offset in *. cbn [XY.x XY.y]. lia.
Qed.

Lemma DrawPixel_keeps_opaque_in image pixels x y q :
  in_canvas image q ->
  opaque_in image pixels q -> opaque_in image (DrawPixel image pixels x y) q.
Proof.
  intros Hq (a & Ha & Hnz). unfold opaque_in, alpha_at in *.
  pose proof (pixel_offset_nonneg image q Hq) as Hoff.
  pose proof (lookup_lt_Some _ _ _ Ha) as Hlt.
  unfold DrawPixel, DrawPixel_stores. destruct (_ && _); [|by exists a].
  rewrite lookup_apply_stores. cbn [last_store fst snd].
  destruct (Z.eqb_spec ((y * width image + x) * 2 + 1)
              (Z.of_nat (Z.to_nat (pixel_offset image q + 1)))).
  - rewrite bool_decide_eq_true_2 by lia. by exists 255.
  - destruct (Z.eqb_spec ((y * width image + x) * 2)
                (Z.of_nat (Z.to_nat (pixel_offset image q + 1)))).
    + unfold pixel_offset in *. lia.
    + by exists a.
Qed.

Lemma settled_accept beyond image pixels0 reg pixels i s :
  settled image pixels0 reg pixels -> in_canvas image s ->
  accepts beyond image pixels i s = true ->
  settled image pixels0 (reg ++ [s]) (DrawPixel image pixels (XY.x s) (XY.y s)).
Proof.
  intros (Hpl & Hlen0 & Halone & Hmono & Hwas) Hs Hacc.
  pose proof (placed_accept beyond image reg pixels i s Hpl Hs Hacc) as Hpl'.
  destruct Hpl as (Hlen & Hin & Hop & Hiso).
  apply andb_prop in Hacc as [_ Hempty].
  rewrite Forall_forall in Hin, Hop.
  assert (alpha_at image pixels s = Some 0) as Hcentre.
  { apply (IsEmptyRegion_clear_near (beyond i) image pixels s s); try done.
    unfold dist2, RADIUS. lia. }
  split; [done|]. split; [done|]. split; [|split].
  - intros u q [Hu|Hu]%elem_of_app Hq Hne Hnear.
    + destruct (decide (q = s)) as [->|Hqs].
      * exfalso.
        pose proof (IsEmptyRegion_far (beyond i) image pixels s u
                      (Hin u Hu) (Hop u Hu) Hempty) as Hfar.
        rewrite dist2_sym in Hfar. lia.
      * destruct s as [sx sy]. rewrite DrawPixel_alpha_other by done.
        by apply (Halone u).
    + apply list_elem_of_singleton in Hu as ->.
      destruct s as [sx sy]. rewrite DrawPixel_alpha_other by done.
      by apply (IsEmptyRegion_clear_near (beyond i) image pixels (XY.mk sx sy) q).
  - intros q Hq Hq0. apply DrawPixel_keeps_opaque_in; [done|]. by apply Hmono.
  - intros u [Hu|Hu]%elem_of_app; [by apply Hwas|].
    apply list_elem_of_singleton in Hu as ->.
    pose proof (alpha_offset_in_buffer image pixels0 s Hs Hlen0) as Hlt.
    unfold alpha_at, pixel_offset in *.
    destruct (lookup_lt_is_Some_2 pixels0 _ Hlt) as [a Ha]. rewrite Ha.
    destruct (decide (a = 0)) as [->|Hnz]; [done|]. exfalso.
    destruct (Hmono s Hs) as (a' & Ha' & Hnz').
    { exists a. unfold alpha_at, pixel_offset. done. }
    unfold alpha_at, pixel_offset in Ha'. congruence.
Qed.

(** X7.  What placement guarantees around each accepted star.  In the
    buffer it leaves, every other pixel of the canvas within [RADIUS] of
    an accepted star is transparent; every pixel of the canvas that was
    not transparent in the given buffer is farther than [RADIUS] from
    every accepted star, and is still not transparent. *)
Theorem accepted_stars_alone RAND_MAX rand beyond image (pixels : list Z) :
  length pixels = Z.to_nat (PNG_IMAGE_SIZE image) ->
  draws_in_range RAND_MAX rand (length (init_stars image)) ->
  exists st,
    generate RAND_MAX rand beyond image pixels = Some st
    /\ (forall s q, s ∈ registry st -> in_canvas image q -> q <> s ->
          dist2 q s <= RADIUS * RADIUS ->
          alpha_at image (vs_pixels st) q = Some 0)
    /\ (forall s q, s ∈ registry st -> in_canvas image q ->
          opaque_in image pixels q -> RADIUS * RADIUS < dist2 q s)
    /\ (forall q, in_canvas image q -> opaque_in image pixels q ->
          opaque_in image (vs_pixels st) q).
Proof.
  intros Hlen Hdraw.
  destruct (generate_as_append RAND_MAX rand beyond image pixels Hdraw)
    as (stars & st & _ & Hperm & Hgen & Hreg & Hpix & _).
  exists st. split; [done|].
  assert (settled image pixels (registry st) (vs_pixels st))
    as (_ & _ & Halone & Hmono & Hwas).
  { rewrite Hreg, Hpix.
    apply (place_append_invariant beyond image (settled image pixels) stars).
    - intros i s reg px Hs Hset Hacc. apply (settled_accept beyond _ _ _ _ i); try done.
      apply elem_of_init_stars. by rewrite <- Hperm.
    - split; [|split; [done|split; [|split; [done|]]]].
      + split; [done|]. split; [constructor|]. split; [constructor|].
        intros a b p q _ Ha. by rewrite lookup_nil in Ha.
      + intros s q []%elem_of_nil.
      + intros s []%elem_of_nil. }
  split; [done|]. split; [|done].
  intros s q Hs Hq (a & Ha & Hnz).
  destruct (Z.lt_ge_cases (RADIUS * RADIUS) (dist2 q s)) as [|Hnear]; [done|].
  exfalso. destruct (decide (q = s)) as [->|Hne].
  - rewrite (Hwas s Hs) in Ha. congruence.
  - destruct (Hmono q Hq) as (a' & Ha' & Hnz'); [by exists a|].
    rewrite (Halone s q Hs Hq Hne) in Ha' by lia. congruence.
Qed.

Lemma accepted_stars_alone_witness :
  opaque_in image32 spotted32 (XY.mk 16 16)
  /\ registry <$> generate sample_RAND_MAX sample_rand zeros_beyond image32 spotted32
     = Some [XY.mk 3 25; XY.mk 19 1; XY.mk 0 0; XY.mk 28 13; XY.mk 26 28]
  /\ exists st,
    generate sample_RAND_MAX sample_rand zeros_beyond image32 spotted32 = Some st
    /\ (forall s q, s ∈ registry st -> in_canvas image32 q -> q <> s ->
          dist2 q s <= RADIUS * RADIUS ->
          alpha_at image32 (vs_pixels st) q = Some 0)
    /\ (forall s q, s ∈ registry st -> in_canvas image32 q ->
          opaque_in image32 spotted32 q -> RADIUS * RADIUS < dist2 q s)
    /\ (forall q, in_canvas image32 q -> opaque_in image32 spotted32 q ->
          opaque_in image32 (vs_pixels st) q).
Proof.
  split; [exists 255; split; [vm_compute; reflexivity|lia]|].
  split; [vm_compute; reflexivity|].
  apply (accepted_stars_alone sample_RAND_MAX sample_rand zeros_beyond
           image32 spotted32).
  - vm_compute. reflexivity.
  - apply draws_in_rangeb_true. vm_compute. reflexivity.
Defined.

(* ================================================================= *)
(** * More on the initial array and the shuffle *)

Lemma lookup_bind_rows {A B} (g : A -> list B) (n : nat) (l : list A) (i j : nat) :
  (forall a, length (g a) = n) -> (j < n)%nat ->
  (l ≫= g) !! (i * n + j)%nat = l !! i ≫= (fun a => g a !! j).
Proof.
  intros Hg Hj. revert i. induction l as [|a l IH]; intros i.
  - by destruct i.
  - rewrite list_bind_cons. destruct i as [|i].
    + rewrite lookup_app_l by (rewrite Hg; lia). done.
    + rewrite lookup_app_r by (rewrite Hg; lia). rewrite Hg.
      replace (S i * n + j - n)%nat with (i * n + j)%nat by lia.
      apply IH.
Qed.

Lemma lookup_bind_singleton {A B} (f : A -> B) (l : list A) (j : nat) :
  (x ← l; [f x]) !! j = f <$> l !! j.
Proof.
  revert j. induction l as [|a l IH]; intros j; [done|].
  rewrite list_bind_cons. destruct j as [|j]; [done|]. apply IH.
Qed.

(** X9.  The initialisation loops fill the array in row-major order: slot
    [y*width + x] holds [(x, y)] for every coordinate of the canvas, the
    array has [height*width] slots, and a slot holds no other coordinate. *)
Theorem init_stars_row_major image (i : nat) s :
  init_stars image !! i = Some s <->
  in_canvas image s /\ i = Z.to_nat (XY.y s * width image + XY.x s).
Proof.
  assert (forall t, in_canvas image t ->
            init_stars image !! Z.to_nat (XY.y t * width image + XY.x t) = Some t)
    as Hfill.
  { intros [tx ty] [Hx Hy]; simpl in *. unfold init_stars.
    replace (Z.to_nat (ty * width image + tx))
      with (Z.to_nat ty * Z.to_nat (width image) + Z.to_nat tx)%nat by nia.
    rewrite (lookup_bind_rows _ (Z.to_nat (width image))); [|..|lia].
    - rewrite lookup_seqZ_lt by lia. cbn [mbind option_bind].
      rewrite lookup_bind_singleton, lookup_seqZ_lt by lia.
      cbn [fmap option_fmap option_map]. do 2 f_equal; lia.
    - intros y. rewrite (length_bind_const _ 1%nat), length_seqZ; [lia|done]. }
  split.
  - intros Hi.
    assert (in_canvas image s) as Hs
      by (apply elem_of_init_stars; by apply (list_elem_of_lookup_2 _ i)).
    split; [done|].
    apply (NoDup_lookup (init_stars image) _ _ s (NoDup_init_stars image) Hi).
    by apply Hfill.
  - intros [Hs ->]. by apply Hfill.
Qed.

Lemma swap_is_Some stars (i : nat) (j : Z) :
  (i < length stars)%nat ->
  is_Some (swap stars i j) <-> 0 <= j < Z.of_nat (length stars).
Proof.
  intros Hi. split.
  - intros [l Hl]. unfold swap in Hl.
    destruct (Z.ltb_spec j 0); [done|].
    destruct (stars !! i) as [a|]; [|done]. cbn [mbind option_bind] in Hl.
    destruct (stars !! Z.to_nat j) as [b|] eqn:Hb; [|done].
    apply lookup_lt_Some in Hb. lia.
  - intros Hj. destruct (swap_Some stars i j Hi Hj) as (l & -> & _). done.
Qed.

Lemma swap_Some_inv stars (i : nat) (j : Z) l :
  swap stars i j = Some l -> l ≡ₚ stars /\ length l = length stars.
Proof.
  unfold swap. destruct (Z.ltb_spec j 0); [done|].
  destruct (stars !! i) as [a|] eqn:Ha; [|done]. cbn [mbind option_bind].
  destruct (stars !! Z.to_nat j) as [b|] eqn:Hb; [|done].
  cbn [mbind option_bind]. intros [= <-]. split.
  - by apply Permutation_insert_swap.
  - by rewrite !length_insert.
Qed.

Lemma shuffle_from_spec RAND_MAX rand i calls stars :
  (i < length stars)%nat ->
  (is_Some (shuffle_from RAND_MAX rand i calls stars) <->
   forall i', (0 < i' <= i)%nat ->
     0 <= RandomInt RAND_MAX rand (calls + (i - i')) 0 (Z.of_nat i')
       < Z.of_nat (length stars))
  /\ (forall l, shuffle_from RAND_MAX rand i calls stars = Some l -> l ≡ₚ stars).
Proof.
  revert calls stars. induction i as [|i IH]; intros calls stars Hi.
  - cbn [shuffle_from]. split.
    + split; [intros _ i' Hi'; lia|done].
    + intros l [= <-]. done.
  - cbn [shuffle_from].
    destruct (swap stars (S i) (RandomInt RAND_MAX rand calls 0 (Z.of_nat (S i))))
      as [stars1|] eqn:Hswap.
    + cbn [mbind option_bind].
      destruct (swap_Some_inv _ _ _ _ Hswap) as [Hperm Hlen].
      assert (0 <= RandomInt RAND_MAX rand calls 0 (Z.of_nat (S i))
              < Z.of_nat (length stars)) as Hj
        by (apply (swap_is_Some stars (S i)); [done|by rewrite Hswap]).
      destruct (IH (S calls) stars1 ltac:(lia)) as [Hsome Hres].
      split.
      * rewrite Hsome, Hlen. split; intros H i' Hi'.
        -- destruct (decide (i' = S i)) as [->|].
           ++ replace (calls + (S i - S i))%nat with calls by lia. done.
           ++ replace (calls + (S i - i'))%nat with (S calls + (i - i'))%nat
                by lia.
              apply H. lia.
        -- replace (S calls + (i - i'))%nat with (calls + (S i - i'))%nat by lia.
           apply H. lia.
      * intros l Hl. rewrite (Hres l Hl). done.
    + cbn [mbind option_bind]. split; [|done]. split.
      * intros [? ?]. done.
      * intros H. exfalso. specialize (H (S i) ltac:(lia)).
        replace (calls + (S i - S i))%nat with calls in H by lia.
        apply (swap_is_Some stars (S i)) in H; [|done].
        rewrite Hswap in H. by destruct H.
Qed.

(** X8.  The shuffle runs to its end exactly when every swap index it
    draws is an index of the array (negative or past the end is an
    out-of-bounds access), and whenever it does the array it leaves is a
    permutation of the array it was given, also when an index drawn for
    slot [i] is larger than [i]. *)
Theorem shuffle_returns_iff RAND_MAX rand stars :
  (is_Some (shuffle RAND_MAX rand stars) <->
   forall i, (0 < i < length stars)%nat ->
     0 <= swap_index RAND_MAX rand (length stars) i < Z.of_nat (length stars))
  /\ (forall l, shuffle RAND_MAX rand stars = Some l ->
        l ≡ₚ stars /\ length l = length stars).
Proof.
  unfold shuffle, swap_index.
  destruct stars as [|s0 stars].
  - cbn [length shuffle_from]. split.
    + split; [intros _ i Hi; simpl in Hi; lia|done].
    + intros l [= <-]. done.
  - destruct (shuffle_from_spec RAND_MAX rand (length (s0 :: stars) - 1) 0
                (s0 :: stars)) as [Hsome Hres]; [simpl; lia|].
    split.
    + rewrite Hsome. split; intros H i Hi.
      * replace (length (s0 :: stars) - 1 - i)%nat
          with (0 + (length (s0 :: stars) - 1 - i))%nat by lia.
        apply H. simpl in *. lia.
      * replace (0 + (length (s0 :: stars) - 1 - i))%nat
          with (length (s0 :: stars) - 1 - i)%nat by lia.
        apply H. simpl in *. lia.
    + intros l Hl. pose proof (Hres l Hl) as Hperm.
      split; [done|]. by rewrite Hperm.
Qed.

(* ================================================================= *)
(** * More on the frame renderer *)

(** X10.  A negative frame number is converted to [uint32_t] before it is
    added.  While [(Hash >> 4) + f] is not negative the phase is the same
    expression as for [f >= 0]; once it is negative the sum is taken
    [2^32] higher, and the place of the frame in the period of 20 is 16
    ahead of where the cycle would be. *)
Theorem phase_negative_frame s f :
  - INT_MAX - 1 <= f < 0 ->
  (0 <= Z.shiftr (HashPair (XY.x s) (XY.y s)) 4 + f ->
     phase s f = ((Z.shiftr (HashPair (XY.x s) (XY.y s)) 4 + f) / 5) mod 4)
  /\ (Z.shiftr (HashPair (XY.x s) (XY.y s)) 4 + f < 0 ->
        phase s f
        = ((Z.shiftr (HashPair (XY.x s) (XY.y s)) 4 + f + 4294967296) / 5) mod 4
        /\ phase s f
           = (((Z.shiftr (HashPair (XY.x s) (XY.y s)) 4 + f) mod 20 + 16) mod 20)
             / 5).
Proof.
  intros Hf. unfold INT_MAX in Hf.
  pose proof (phase_offset_range s) as Hh.
  rewrite phase_unfold. unfold wrap32. change (2 ^ 32) with 4294967296.
  set (h := Z.shiftr (HashPair (XY.x s) (XY.y s)) 4) in *.
  assert (f mod 4294967296 = f + 4294967296) as ->
    by (Z.to_euclidean_division_equations; lia).
  split.
  - intros Hpos.
    assert ((h + (f + 4294967296)) mod 4294967296 = h + f) as ->
      by (Z.to_euclidean_division_equations; lia).
    done.
  - intros Hneg.
    assert ((h + (f + 4294967296)) mod 4294967296 = h + f + 4294967296) as ->
      by (Z.to_euclidean_division_equations; lia).
    split; [done|]. Z.to_euclidean_division_equations; lia.
Qed.

Lemma phase_negative_frame_witness :
  phase (XY.mk 0 0) (-5) = 2 /\ phase (XY.mk 0 0) 15 = 3.
Proof.
  destruct (phase_negative_frame (XY.mk 0 0) (-5)) as [_ Hneg];
    [unfold INT_MAX; lia|].
  destruct Hneg as [_ ->]; vm_compute; [reflexivity|]. split; reflexivity.
Defined.

Lemma glitter_of_phase s frame :
  glitter_of (phase s frame) = Glitter <-> phase s frame = 2.
Proof.
  assert (0 <= phase s frame < 4) as Hr
    by (rewrite phase_unfold; apply Z.mod_pos_bound; lia).
  destruct (glitter_of_cases (phase s frame))
    as [[? Hj] | [[? Hj] | (? & ? & ? & Hj)]]; rewrite Hj;
    split; try done; lia.
Qed.

(** The pixel a store of one iteration of the render loop hits: the star
    itself in phase 0, a cardinal neighbour inside the canvas in phase 2. *)
Lemma render_star_stores_target image frame s k b :
  (k, b) ∈ render_star_stores image frame s ->
  exists q c, (c = 0 \/ c = 1) /\ k = pixel_offset image q + c
    /\ ((phase s frame = 0 /\ q = s /\ b = 0)
        \/ (phase s frame = 2 /\ q ∈ tail (star_pixels s) /\ in_canvas image q
            /\ b = 255 * c)).
Proof.
  rewrite elem_of_render_star_stores, glitter_of_phase. unfold pixel_offset.
  intros [[H0 [[= -> ->]|[= -> ->]]] | (H2 & q & Hq & Hin & [[= -> ->]|[= -> ->]])].
  - exists s, 0. split; [by left|]. split; [lia|]. by left.
  - exists s, 1. split; [by right|]. split; [done|]. by left.
  - exists q, 0. split; [by left|]. split; [lia|]. by right.
  - exists q, 1. split; [by right|]. split; [done|]. by right.
Qed.

(** C5.  The render loop never writes outside the canvas.  For a registry
    of canvas coordinates (stars on edges and in corners included) and any
    frame number, every store of the loop lands inside the pixel buffer,
    on the gray or the alpha byte of a pixel of [0,W)x[0,H) that is the
    star itself (the [memset] of phase 0) or one of its four cardinal
    neighbours (the [DrawPixel] calls of phase 2).  A neighbour outside the
    canvas is skipped: [DrawPixel] issues no store for it and leaves the
    buffer as it is, so the stores of a star in phase 2 are those of its
    neighbours inside the canvas and no other. *)
Theorem render_stores_in_canvas image stars frame :
  Forall (in_canvas image) stars ->
  (forall st, st ∈ render_stores image stars frame ->
     0 <= st.1 < PNG_IMAGE_SIZE image
     /\ exists s q c, s ∈ stars /\ in_canvas image q /\ (c = 0 \/ c = 1)
          /\ st.1 = pixel_offset image q + c
          /\ ((phase s frame = 0 /\ q = s /\ st.2 = 0)
              \/ (phase s frame = 2 /\ q ∈ tail (star_pixels s)
                  /\ st.2 = 255 * c)))
  /\ (forall s q pixels, s ∈ stars -> q ∈ tail (star_pixels s) ->
        ~ in_canvas image q ->
        DrawPixel_stores image (XY.x q) (XY.y q) = []
        /\ DrawPixel image pixels (XY.x q) (XY.y q) = pixels)
  /\ (forall s, s ∈ stars -> phase s frame = 2 ->
        render_star_stores image frame s
        = q ← tail (star_pixels s); DrawPixel_stores image (XY.x q) (XY.y q)).
Proof.
  intros Hstars. rewrite Forall_forall in Hstars. split; [|split].
  - intros [k b] Hst. unfold render_stores in Hst.
    apply list_elem_of_bind in Hst as (s & Hst & Hs).
    destruct (render_star_stores_target _ _ _ _ _ Hst)
      as (q & c & Hc & -> & Hcase).
    assert (in_canvas image q) as Hq.
    { destruct Hcase as [(_ & -> & _) | (_ & _ & Hq & _)]; [by apply Hstars|done]. }
    cbn [fst snd]. split.
    + apply (store_in_canvas_bounds image (pixel_offset image q + c, b)).
      exists q, c. by unfold pixel_offset.
    + exists s, q, c. repeat (split; [done|]).
      destruct Hcase as [? | (? & ? & _ & ?)]; [by left|by right].
  - intros s [qx qy] pixels _ _ Hout. cbn [XY.x XY.y]. split.
    + destruct (DrawPixel_stores image qx qy) as [|st sts] eqn:E; [done|].
      exfalso. apply Hout.
      apply (proj1 (elem_of_DrawPixel_stores image qx qy st)).
      rewrite E. left.
    + by apply DrawPixel_outside.
  - intros s _ H2. unfold render_star_stores.
    rewrite (proj2 (glitter_of_phase s frame) H2).
    unfold star_pixels. cbn [tail].
    rewrite !list_bind_cons. cbn [XY.x XY.y].
    change (@mbind list _ _ _ ?f []) with (@nil store).
    by rewrite app_nil_r.
Qed.

Lemma render_stores_in_canvas_witness :
  Forall (in_canvas image10) [XY.mk 9 4]
  /\ phase (XY.mk 9 4) 0 = 2
  /\ render_stores image10 [XY.mk 9 4] 0
     = [(96, 0); (97, 255); (78, 0); (79, 255); (118, 0); (119, 255)]
  /\ (forall st, st ∈ render_stores image10 [XY.mk 9 4] 0 ->
        0 <= st.1 < PNG_IMAGE_SIZE image10
        /\ exists s q c, s ∈ [XY.mk 9 4] /\ in_canvas image10 q /\ (c = 0 \/ c = 1)
             /\ st.1 = pixel_offset image10 q + c
             /\ ((phase s 0 = 0 /\ q = s /\ st.2 = 0)
                 \/ (phase s 0 = 2 /\ q ∈ tail (star_pixels s)
                     /\ st.2 = 255 * c)))
  /\ DrawPixel_stores image10 10 4 = []
  /\ DrawPixel image10 blank10 10 4 = blank10
  /\ render_star_stores image10 0 (XY.mk 9 4)
     = q ← tail (star_pixels (XY.mk 9 4));
       DrawPixel_stores image10 (XY.x q) (XY.y q).
Proof.
  assert (Forall (in_canvas image10) [XY.mk 9 4]) as Hin.
  { apply Forall_singleton. unfold in_canvas. simpl. lia. }
  assert (phase (XY.mk 9 4) 0 = 2) as H2 by (vm_compute; reflexivity).
  destruct (render_stores_in_canvas image10 [XY.mk 9 4] 0 Hin)
    as (Hstores & Hskip & Hexact).
  split; [done|]. split; [done|].
  split; [vm_compute; reflexivity|]. split; [done|].
  assert (XY.mk 9 4 ∈ [XY.mk 9 4]) as Hs by left.
  assert (XY.mk 10 4 ∈ tail (star_pixels (XY.mk 9 4))) as Hq
    by (unfold star_pixels; simpl; right; left).
  assert (~ in_canvas image10 (XY.mk 10 4)) as Hout
    by (unfold in_canvas; simpl; lia).
  destruct (Hskip (XY.mk 9 4) (XY.mk 10 4) blank10 Hs Hq Hout) as [Hnone Hsame].
  split; [done|]. split; [done|]. by apply Hexact.
Defined.

Lemma render_frame_bytes image stars frame (pixels : list Z) (n : nat) :
  (forall s, s ∈ stars ->
     Z.of_nat n <> pixel_offset image s /\ Z.of_nat n <> pixel_offset image s + 1) ->
  (forall s q, s ∈ stars -> q ∈ tail (star_pixels s) -> in_canvas image q ->
     Z.of_nat n <> pixel_offset image q /\ Z.of_nat n <> pixel_offset image q + 1) ->
  render image stars frame pixels !! n = pixels !! n
  /\ length (render image stars frame pixels) = length pixels.
Proof.
  intros Hstar Hnear. rewrite render_apply_stores, length_apply_stores.
  split; [|done]. rewrite lookup_apply_stores.
  assert (last_store (render_stores image stars frame) (Z.of_nat n) = None) as ->;
    [|done].
  apply last_store_None. intros b Hb. unfold render_stores in Hb.
  apply list_elem_of_bind in Hb as (s & Hb & Hs).
  apply render_star_stores_target in Hb
    as (q & c & Hc & Hk & [(_ & -> & _) | (_ & Hq & Hin & _)]).
  - destruct (Hstar s Hs). lia.
  - destruct (Hnear s q Hs Hq Hin). lia.
Qed.

(** X11.  The render loop keeps the length of the buffer and leaves every
    byte alone that is neither a byte of a star of the registry nor a byte
    of a cardinal neighbour, inside the canvas, of such a star. *)
Theorem render_touches_only_stars image stars frame (pixels : list Z) (n : nat) :
  (forall s, s ∈ stars ->
     Z.of_nat n <> pixel_offset image s /\ Z.of_nat n <> pixel_offset image s + 1) ->
  (forall s q, s ∈ stars -> q ∈ tail (star_pixels s) -> in_canvas image q ->
     Z.of_nat n <> pixel_offset image q /\ Z.of_nat n <> pixel_offset image q + 1) ->
  render image stars frame pixels !! n = pixels !! n
  /\ length (render image stars frame pixels) = length pixels.
Proof. apply render_frame_bytes. Qed.

Lemma render_touches_only_stars_witness :
  render image10 [star67] 10 fresh67 !! 0%nat = fresh67 !! 0%nat
  /\ length (render image10 [star67] 10 fresh67) = length fresh67.
Proof.
  apply (render_touches_only_stars image10 [star67] 10 fresh67 0).
  - intros s ->%list_elem_of_singleton. vm_compute. split; discriminate.
  - intros s q ->%list_elem_of_singleton Hq _.
    unfold star_pixels, star67 in Hq. cbn [tail XY.x XY.y] in Hq.
    rewrite !elem_of_cons, elem_of_nil in Hq.
    destruct Hq as [->|[->|[->|[->|[]]]]]; vm_compute; split; discriminate.
Defined.

(* ================================================================= *)
(** * The picture the program writes *)

Lemma last_store_consistent sts k b :
  (k, b) ∈ sts -> (forall b', (k, b') ∈ sts -> b' = b) ->
  last_store sts k = Some b.
Proof.
  intros Hin Hall. destruct (last_store sts k) as [b'|] eqn:E.
  - f_equal. by apply Hall, last_store_Some.
  - exfalso. by apply (proj1 (last_store_None sts k) E b).
Qed.

Lemma isolated_elem reg s t :
  isolated reg -> s ∈ reg -> t ∈ reg -> s <> t -> RADIUS * RADIUS < dist2 t s.
Proof.
  intros Hiso [a Ha]%list_elem_of_lookup [b Hb]%list_elem_of_lookup Hne.
  destruct (Nat.lt_trichotomy a b) as [Hlt|[->|Hgt]].
  - rewrite dist2_sym. by apply (Hiso a b).
  - congruence.
  - by apply (Hiso b a).
Qed.

(** Two stars that share a pixel of their crosses are at most 2 apart. *)
Lemma star_pixels_close s t q :
  q ∈ star_pixels s -> q ∈ star_pixels t -> dist2 t s <= 4.
Proof.
  destruct s as [sx sy], t as [tx ty]. unfold star_pixels, dist2.
  cbn [XY.x XY.y]. rewrite !elem_of_cons, !elem_of_nil.
  intros [->|[->|[->|[->|[->|[]]]]]] [Ht|[Ht|[Ht|[Ht|[Ht|[]]]]]];
    injection Ht as Hx Hy; nia.
Qed.

Lemma star_pixels_neighbour s q :
  q ∈ tail (star_pixels s) -> q <> s /\ dist2 q s = 1 /\ q ∈ star_pixels s.
Proof.
  destruct s as [sx sy]. unfold star_pixels, dist2. cbn [tail XY.x XY.y].
  rewrite !elem_of_cons, !elem_of_nil.
  intros [->|[->|[->|[->|[]]]]]; cbn [XY.x XY.y];
    (split; [intros Heq; pose proof (f_equal XY.x Heq) as Hx;
             pose proof (f_equal XY.y Heq) as Hy;
             cbn [XY.x XY.y] in Hx, Hy; lia|]);
    (split; [lia|]); auto 10.
Qed.

Section Picture.
Variable image : png_image.
Variable frame : Z.
Variable reg : list XY.
Variable pixels : list Z.
Hypothesis Hplaced : placed image reg pixels.

(** In an isolated registry only a star's own iteration stores to the
    pixels of its cross. *)
Lemma render_stores_owner s q c k b :
  s ∈ reg -> q ∈ star_pixels s -> in_canvas image q -> (c = 0 \/ c = 1) ->
  k = pixel_offset image q + c ->
  (k, b) ∈ render_stores image reg frame ->
  (k, b) ∈ render_star_stores image frame s.
Proof.
  destruct Hplaced as (_ & Hin & _ & Hiso). rewrite Forall_forall in Hin.
  intros Hs Hq Hqc Hc -> Hb. unfold render_stores in Hb.
  apply list_elem_of_bind in Hb as (t & Hb & Ht).
  destruct (decide (s = t)) as [->|Hne]; [done|]. exfalso.
  pose proof (isolated_elem reg s t Hiso Hs Ht Hne) as Hfar.
  apply render_star_stores_target in Hb
    as (q' & c' & Hc' & Hk & [(_ & -> & _) | (_ & Hq' & Hin' & _)]).
  - destruct (pixel_offset_inj image q t c c' Hqc (Hin t Ht) Hc Hc' Hk) as [-> _].
    assert (dist2 t s <= 4); [|unfold RADIUS in Hfar; lia].
    apply (star_pixels_close s t t Hq). unfold star_pixels. left.
  - destruct (pixel_offset_inj image q q' c c' Hqc Hin' Hc Hc' Hk) as [-> _].
    assert (dist2 t s <= 4); [|unfold RADIUS in Hfar; lia].
    apply (star_pixels_close s t q' Hq). by apply star_pixels_neighbour.
Qed.




Lemma pixel_at_gray (px : list Z) q g a :
  in_canvas image q -> pixel_at image px q = Some (g, a) ->
  px !! Z.to_nat (pixel_offset image q + 0) = Some g
  /\ px !! Z.to_nat (pixel_offset image q + 1) = Some a.
Proof.
  intros Hq. pose proof (pixel_offset_nonneg image q Hq) as Hoff.
  unfold pixel_at. fold (pixel_offset image q). rewrite Z.add_0_r.
  replace (S (Z.to_nat (pixel_offset image q)))
    with (Z.to_nat (pixel_offset image q + 1)) by lia.
  destruct (px !! Z.to_nat (pixel_offset image q)) as [g'|]; [|done].
  cbn [mbind option_bind].
  destruct (px !! Z.to_nat (pixel_offset image q + 1)) as [a'|]; [|done].
  cbn [mbind option_bind]. by intros [= -> ->].
Qed.




End Picture.




(* ================================================================= *)
(** * Placement leaves no candidate acceptable *)

Lemma alpha_grows_refl pixels : alpha_grows pixels pixels.
Proof. split; [done|]. intros n a Ha Hnz. by exists a. Qed.

Lemma alpha_grows_trans px1 px2 px3 :
  alpha_grows px1 px2 -> alpha_grows px2 px3 -> alpha_grows px1 px3.
Proof.
  intros [Hl1 H1] [Hl2 H2]. split; [congruence|].
  intros n a Ha Hnz. destruct (H1 n a Ha Hnz) as (a' & Ha' & Hnz').
  by apply (H2 n a').
Qed.

Lemma DrawPixel_alpha_grows image pixels x y :
  alpha_grows pixels (DrawPixel image pixels x y).
Proof.
  split; [by rewrite length_DrawPixel|].
  intros n a Ha Hnz. pose proof (lookup_lt_Some _ _ _ Ha) as Hlt.
  unfold DrawPixel, DrawPixel_stores. destruct (_ && _); [|by exists a].
  rewrite lookup_apply_stores. cbn [last_store fst snd].
  destruct (Z.eqb_spec ((y * width image + x) * 2 + 1) (Z.of_nat (2 * n + 1))).
  - rewrite bool_decide_eq_true_2 by lia. by exists 255.
  - destruct (Z.eqb_spec ((y * width image + x) * 2) (Z.of_nat (2 * n + 1)));
      [lia|by exists a].
Qed.

(** A proximity test that fails keeps failing while alpha bytes only
    turn opaque. *)
Lemma IsEmptyRegion_alpha_grows beyond image pixels pixels' x y :
  0 <= width image -> alpha_grows pixels pixels' ->
  IsEmptyRegion beyond image pixels x y = false ->
  IsEmptyRegion beyond image pixels' x y = false.
Proof.
  intros Hw [Hlen Hgrow] Hfalse.
  destruct (IsEmptyRegion beyond image pixels' x y) eqn:Htrue; [|done].
  rewrite <- Hfalse. symmetry. apply IsEmptyRegion_true.
  rewrite IsEmptyRegion_true in Htrue.
  intros ix iy Hix Hiy Hnear. specialize (Htrue ix iy Hix Hiy Hnear).
  rewrite Max_spec in Hix, Hiy.
  assert (0 <= iy * width image + ix) as Hq by nia.
  unfold load in *.
  destruct (Z.ltb_spec ((iy * width image + ix) * 2 + 1) 0); [lia|].
  replace (Z.to_nat ((iy * width image + ix) * 2 + 1))
    with (2 * Z.to_nat (iy * width image + ix) + 1)%nat in * by lia.
  set (n := Z.to_nat (iy * width image + ix)) in *.
  destruct (pixels !! (2 * n + 1)%nat) as [a|] eqn:Ha.
  - destruct (decide (a = 0)) as [->|Hnz]; [done|].
    destruct (Hgrow n a Ha Hnz) as (a' & Ha' & Hnz').
    rewrite Ha' in Htrue. done.
  - apply lookup_ge_None in Ha. rewrite Hlen in Ha.
    apply lookup_ge_None in Ha. by rewrite Ha in Htrue.
Qed.

Lemma accepts_alpha_grows beyond image pixels pixels' i s :
  0 <= width image -> alpha_grows pixels pixels' ->
  accepts beyond image pixels i s = false ->
  accepts beyond image pixels' i s = false.
Proof.
  intros Hw Hgrow. unfold accepts.
  destruct (IsStarLocation (XY.x s) (XY.y s)); [|done]. cbn [andb].
  by apply IsEmptyRegion_alpha_grows.
Qed.

(** A star that was just drawn fails the proximity test. *)
Lemma accepts_after_DrawPixel beyond image (pixels : list Z) i s :
  in_canvas image s -> length pixels = Z.to_nat (PNG_IMAGE_SIZE image) ->
  accepts beyond image (DrawPixel image pixels (XY.x s) (XY.y s)) i s = false.
Proof.
  intros Hs Hlen. unfold accepts.
  destruct (IsEmptyRegion (beyond i) image
              (DrawPixel image pixels (XY.x s) (XY.y s)) (XY.x s) (XY.y s))
    eqn:Hempty; [|by rewrite andb_false_r].
  exfalso.
  pose proof (DrawPixel_opaque_self image pixels s Hs Hlen) as Hop.
  assert (alpha_at image (DrawPixel image pixels (XY.x s) (XY.y s)) s = Some 0)
    as Hz.
  { apply (IsEmptyRegion_clear_near (beyond i) image _ s s); try done.
    - by rewrite length_DrawPixel.
    - unfold dist2, RADIUS. lia. }
  unfold opaque_at, alpha_at, pixel_offset in *. congruence.
Qed.

Lemma place_append_saturates beyond image i cands reg (pixels : list Z) :
  Forall (in_canvas image) cands ->
  length pixels = Z.to_nat (PNG_IMAGE_SIZE image) ->
  alpha_grows pixels (place_append beyond image i cands reg pixels).2
  /\ forall j s, cands !! j = Some s ->
       accepts beyond image (place_append beyond image i cands reg pixels).2
         (i + j) s = false.
Proof.
  revert i reg pixels.
  induction cands as [|s cands IH]; intros i reg pixels Hc Hlen.
  - split; [apply alpha_grows_refl|]. intros j s Hs. by rewrite lookup_nil in Hs.
  - apply Forall_cons in Hc as [Hs Hc]. cbn [place_append].
    assert (0 <= width image) as Hw by (destruct Hs; lia).
    destruct (accepts beyond image pixels i s) eqn:Hacc.
    + destruct (IH (S i) (reg ++ [s])
                  (DrawPixel image pixels (XY.x s) (XY.y s)) Hc)
        as [Hgrow Hrest]; [by rewrite length_DrawPixel|].
      split.
      * eapply alpha_grows_trans; [apply DrawPixel_alpha_grows|done].
      * intros [|j] t Ht.
        -- injection Ht as <-. rewrite Nat.add_0_r.
           apply (accepts_alpha_grows beyond image
                    (DrawPixel image pixels (XY.x s) (XY.y s))); [done|done|].
           by apply accepts_after_DrawPixel.
        -- replace (i + S j)%nat with (S i + j)%nat by lia. by apply Hrest.
    + destruct (IH (S i) reg pixels Hc Hlen) as [Hgrow Hrest].
      split; [done|].
      intros [|j] t Ht.
      * injection Ht as <-. rewrite Nat.add_0_r.
        by apply (accepts_alpha_grows beyond image pixels).
      * replace (i + S j)%nat with (S i + j)%nat by lia. by apply Hrest.
Qed.

(** X14.  Placement is greedy to the end: on the buffer it leaves, no slot
    of the shuffled array holds a candidate that still passes both the
    hash test and the proximity test; an accepted star blocks itself, and
    a rejected candidate stays rejected because the pass only turns
    pixels opaque. *)
Theorem placement_saturates RAND_MAX rand beyond image (pixels : list Z) :
  length pixels = Z.to_nat (PNG_IMAGE_SIZE image) ->
  draws_in_range RAND_MAX rand (length (init_stars image)) ->
  exists stars st,
    shuffle RAND_MAX rand (init_stars image) = Some stars
    /\ generate RAND_MAX rand beyond image pixels = Some st
    /\ alpha_grows pixels (vs_pixels st)
    /\ none_accepted beyond image (vs_pixels st) stars.
Proof.
  intros Hlen Hdraw.
  destruct (generate_as_append RAND_MAX rand beyond image pixels Hdraw)
    as (stars & st & Hsh & Hperm & Hgen & _ & Hpix & _).
  exists stars, st. split; [done|]. split; [done|].
  destruct (place_append_saturates beyond image 0 stars [] pixels)
    as [Hgrow Hnone]; [|done|].
  - apply Forall_forall. intros s Hs. apply elem_of_init_stars.
    by rewrite <- Hperm.
  - rewrite Hpix. split; [done|]. intros j s Hs. by apply (Hnone j s).
Qed.

Lemma placement_saturates_witness :
  exists stars st,
    shuffle sample_RAND_MAX sample_rand (init_stars image32) = Some stars
    /\ generate sample_RAND_MAX sample_rand zeros_beyond image32 blank32 = Some st
    /\ alpha_grows blank32 (vs_pixels st)
    /\ none_accepted zeros_beyond image32 (vs_pixels st) stars.
Proof.
  apply (placement_saturates sample_RAND_MAX sample_rand zeros_beyond
           image32 blank32).
  - vm_compute. reflexivity.
  - apply draws_in_rangeb_true. vm_compute. reflexivity.
Defined.

(* ================================================================= *)
(** * The order of the registry does not show *)

Lemma render_stores_consistent image frame reg pixels k b b' :
  placed image reg pixels ->
  (k, b) ∈ render_stores image reg frame ->
  (k, b') ∈ render_stores image reg frame -> b = b'.
Proof.
  intros Hpl Hb Hb'. pose proof Hpl as (_ & Hin & _).
  rewrite Forall_forall in Hin.
  pose proof Hb as Hb0. unfold render_stores in Hb0.
  apply list_elem_of_bind in Hb0 as (t & Hbt & Ht).
  apply render_star_stores_target in Hbt as (q & c & Hc & Hk & Hcase).
  assert (q ∈ star_pixels t /\ in_canvas image q) as [Hq Hqc].
  { destruct Hcase as [(_ & -> & _) | (_ & Hq & Hqc & _)].
    - split; [unfold star_pixels; left|by apply Hin].
    - split; [by apply star_pixels_neighbour in Hq as (_ & _ & ?)|done]. }
  apply (render_stores_owner image frame reg pixels Hpl t q c) in Hb'; [|done..].
  apply render_star_stores_target in Hb' as (q' & c' & Hc' & Hk' & Hcase').
  destruct Hcase as [(H0 & _ & ->) | (H2 & _ & _ & ->)],
    Hcase' as [(H0' & _ & ->) | (H2' & _ & Hqc' & ->)]; try lia.
  destruct (pixel_offset_inj image q q' c c' Hqc Hqc' Hc Hc') as [_ ->];
    [lia|done].
Qed.

(** X13.  For a registry as placement leaves it (stars of the canvas, more
    than [RADIUS] apart) the rendered buffer does not depend on the order
    of the registry: the crosses of two stars share no pixel. *)
Theorem render_order_irrelevant image frame reg reg' pixels :
  placed image reg pixels -> reg' ≡ₚ reg ->
  render image reg' frame pixels = render image reg frame pixels.
Proof.
  intros Hpl Hperm. apply list_eq. intros n.
  rewrite !render_apply_stores, !lookup_apply_stores.
  assert (forall st, st ∈ render_stores image reg' frame
                     <-> st ∈ render_stores image reg frame) as Hsame.
  { intros st. unfold render_stores. rewrite !list_elem_of_bind.
    split; intros (s & Hst & Hs); exists s; (split; [done|]);
      [by rewrite <- Hperm|by rewrite Hperm]. }
  assert (last_store (render_stores image reg' frame) (Z.of_nat n)
          = last_store (render_stores image reg frame) (Z.of_nat n)) as ->;
    [|done].
  destruct (last_store (render_stores image reg frame) (Z.of_nat n))
    as [b|] eqn:E.
  - apply last_store_Some in E. apply last_store_consistent.
    + by apply Hsame.
    + intros b' Hb'. apply Hsame in Hb'.
      by apply (render_stores_consistent image frame reg pixels (Z.of_nat n)).
  - apply last_store_None. intros b Hb. apply Hsame in Hb.
    by apply (proj1 (last_store_None _ _) E b).
Qed.

Lemma render_order_irrelevant_witness :
  render image32 (reverse pair32) 10 drawn32 = render image32 pair32 10 drawn32.
Proof.
  apply (render_order_irrelevant image32 10 pair32 (reverse pair32) drawn32).
  - split; [vm_compute; reflexivity|]. split; [|split].
    + repeat constructor; vm_compute; congruence.
    + repeat constructor.
    + intros [|[|a]] [|[|b]] p q Hab Ha Hb; simplify_eq/=; try lia.
      vm_compute. reflexivity.
  - apply reverse_Permutation.
Defined.
